(** * aesdsocket: the connection handler and its packet framing

    A shallow embedding of [handle_client] and [listen_socket] of
    [server/aesdsocket.c], and of the connection loop of the older
    variant [server/aesdassignment.c].

    The C code talks to four collaborators it does not control: the
    client socket, the allocator, the data file and the signal flag.
    Their answers are read from scripts carried by the [World]; what
    the handler does to them is recorded in the [World] as well (the
    file content, the log of observable actions, the resources held).

    What the model leaves out: reads of the data file ([fread],
    [fgets]) do not fail; an append that fails leaves the file as it
    was; of the signal handler only the flag it sets is modelled, not
    the descriptors it closes nor its own log line. *)

From Stdlib Require Import String.
From Stdlib Require Import Strings.Byte.
From Stdlib Require Import ZArith List Bool Lia.
Import ListNotations.
Local Open Scope Z_scope.

(** ** Constants and machine integers *)

Definition DATAFILE : string := "/var/tmp/aesdsocketdata".

(** [size_t] on the LP64 targets the server is built for. *)
Definition SIZE_BITS : Z := 64.
Definition SIZE_MOD : Z := 2 ^ SIZE_BITS.

(** Unsigned wrap-around of [size_t] arithmetic. *)
Definition wrap (x : Z) : Z := x mod SIZE_MOD.

(** [sizeof(temp)] and [sizeof(sendbuf)]. *)
Definition TEMP_SIZE : Z := 512.
Definition SENDBUF_SIZE : nat := 1024.
Arguments SENDBUF_SIZE : simpl never.

(** ['\n'] *)
Definition newline : byte := x0a.
Definition is_nl (c : byte) : bool := Byte.eqb c newline.

(** ** The world around the handler *)

Inductive Prio := LOG_INFO | LOG_ERR.

(** Observable actions, oldest first in the [trace]. *)
Inductive Event :=
| Syslog (prio : Prio) (msg : string)
| Perror (msg : string)
| Append (pkt : list byte) (ok : bool)   (* fwrite + fflush on the data file *)
| Sent (bytes : list byte)               (* bytes a send() call handed to the socket *)
| SendFailed (block : list byte).        (* a send() call that returned < 0 *)

(** What a [send] call returns: the whole block, a short count, or -1. *)
Inductive SendResult := SentAll | SentPart (k : nat) | SendErr.

Inductive Resource := RSock | RFile | RBuf | RReader.

Definition Resource_eqb (a b : Resource) : bool :=
  match a, b with
  | RSock, RSock | RFile, RFile | RBuf, RBuf | RReader, RReader => true
  | _, _ => false
  end.

Record World := mkWorld {
  file     : list byte;          (* content of DATAFILE *)
  trace    : list Event;         (* what has been done so far *)
  held     : list Resource;      (* descriptors and blocks not yet released *)
  junk     : byte;               (* what fresh heap memory happens to hold *)
  sig      : option nat;         (* reads of exit_requested left before it reads 1 *)
  alloc_q  : list bool;          (* do the next malloc/realloc calls succeed? *)
  fopen_q  : list bool;          (* do the next fopen calls succeed? *)
  fwrite_q : list bool;          (* do the next fwrite+fflush pairs succeed? *)
  send_q   : list SendResult     (* results of the next send calls *)
}.

(** A script that has run out answers with success. *)
Definition pop {A} (dflt : A) (q : list A) : A * list A :=
  match q with
  | [] => (dflt, [])
  | x :: q' => (x, q')
  end.

Definition set_file (f : list byte) (w : World) : World :=
  mkWorld f (trace w) (held w) (junk w) (sig w) (alloc_q w) (fopen_q w) (fwrite_q w) (send_q w).
Definition set_trace (t : list Event) (w : World) : World :=
  mkWorld (file w) t (held w) (junk w) (sig w) (alloc_q w) (fopen_q w) (fwrite_q w) (send_q w).
Definition set_held (h : list Resource) (w : World) : World :=
  mkWorld (file w) (trace w) h (junk w) (sig w) (alloc_q w) (fopen_q w) (fwrite_q w) (send_q w).
Definition set_sig (s : option nat) (w : World) : World :=
  mkWorld (file w) (trace w) (held w) (junk w) s (alloc_q w) (fopen_q w) (fwrite_q w) (send_q w).
Definition set_alloc_q (q : list bool) (w : World) : World :=
  mkWorld (file w) (trace w) (held w) (junk w) (sig w) q (fopen_q w) (fwrite_q w) (send_q w).
Definition set_fopen_q (q : list bool) (w : World) : World :=
  mkWorld (file w) (trace w) (held w) (junk w) (sig w) (alloc_q w) q (fwrite_q w) (send_q w).
Definition set_fwrite_q (q : list bool) (w : World) : World :=
  mkWorld (file w) (trace w) (held w) (junk w) (sig w) (alloc_q w) (fopen_q w) q (send_q w).
Definition set_send_q (q : list SendResult) (w : World) : World :=
  mkWorld (file w) (trace w) (held w) (junk w) (sig w) (alloc_q w) (fopen_q w) (fwrite_q w) q.

(** ** Control flow

    A statement either falls through with a value, executes [return]
    (leaving [handle_client]), never finishes, or writes outside the
    block it was given. *)

Inductive Flow (A : Type) :=
| Next (a : A)
| Return
| Hang
| Overrun.
Arguments Next {A} a.
Arguments Return {A}.
Arguments Hang {A}.
Arguments Overrun {A}.

Definition M (A : Type) : Type := World -> Flow A * World.

Definition ret {A} (a : A) : M A := fun w => (Next a, w).

Definition bind {A B} (m : M A) (k : A -> M B) : M B :=
  fun w =>
    match m w with
    | (Next a, w') => k a w'
    | (Return, w') => (Return, w')
    | (Hang, w') => (Hang, w')
    | (Overrun, w') => (Overrun, w')
    end.

Definition return_ {A} : M A := fun w => (Return, w).
Definition hang {A} : M A := fun w => (Hang, w).
Definition overrun {A} : M A := fun w => (Overrun, w).

(** A call of a [void] function: its [return] ends the callee only. *)
Definition call (m : M unit) : M unit :=
  fun w =>
    match m w with
    | (Return, w') => (Next tt, w')
    | r => r
    end.

Declare Scope handler_scope.
Delimit Scope handler_scope with handler.
Notation "x <- m ;; k" := (bind m (fun x => k))
  (at level 100, m at next level, right associativity) : handler_scope.
Notation "m ;; k" := (bind m (fun _ => k))
  (at level 100, right associativity) : handler_scope.
Local Open Scope handler_scope.

(** ** Library calls *)

Definition emit (e : Event) : M unit :=
  fun w => (Next tt, set_trace (trace w ++ [e]) w).

Definition syslog (p : Prio) (msg : string) : M unit := emit (Syslog p msg).
Definition perror (msg : string) : M unit := emit (Perror msg).

Fixpoint release_one (r : Resource) (h : list Resource) : list Resource :=
  match h with
  | [] => []
  | x :: h' => if Resource_eqb r x then h' else x :: release_one r h'
  end.

Definition acquire (r : Resource) : M unit :=
  fun w => (Next tt, set_held (r :: held w) w).
Definition release (r : Resource) : M unit :=
  fun w => (Next tt, set_held (release_one r (held w)) w).

(** One read of the volatile flag [exit_requested]; once set it stays set. *)
Definition exit_requested : M bool :=
  fun w =>
    match sig w with
    | None => (Next false, w)
    | Some O => (Next true, w)
    | Some (S k) => (Next false, set_sig (Some k) w)
    end.

(** [fopen(DATAFILE, mode)]: on success the stream is held until [fclose]. *)
Definition fopen (r : Resource) : M bool :=
  fun w =>
    let (ok, q) := pop true (fopen_q w) in
    let w := set_fopen_q q w in
    if ok then (Next true, set_held (r :: held w) w) else (Next false, w).

Definition fclose (r : Resource) : M unit := release r.

(** [fwrite(p, 1, len, fp); fflush(fp);] with both results dropped, as
    the handler drops them.  A failed append leaves the file as it was
    (a write that fails after storing part of the packet is not
    modelled). *)
Definition fwrite_fflush (pkt : list byte) : M unit :=
  fun w =>
    let (ok, q) := pop true (fwrite_q w) in
    let w := set_fwrite_q q w in
    let w := if ok then set_file (file w ++ pkt) w else w in
    (Next tt, set_trace (trace w ++ [Append pkt ok]) w).

(** [send(clientfd, sendbuf, nn, 0) < 0].  The call is taken to return:
    the signal SIGPIPE, which a [send] to a peer that has gone raises
    and which ends the process, is not modelled. *)
Definition send_lt_0 (block : list byte) : M bool :=
  fun w =>
    let (r, q) := pop SentAll (send_q w) in
    let w := set_send_q q w in
    match r with
    | SentAll => (Next false, set_trace (trace w ++ [Sent block]) w)
    | SentPart k => (Next false, set_trace (trace w ++ [Sent (firstn k block)]) w)
    | SendErr => (Next true, set_trace (trace w ++ [SendFailed block]) w)
    end.

(** ** The receive buffer

    [recvbuf] is the whole heap block, [bufsize] its size and [datalen]
    the number of bytes in use at its front, as in [handle_client]. *)

Record Buf := mkBuf {
  recvbuf : list byte;
  bufsize : Z;
  datalen : Z
}.

(** The bytes the handler regards as buffered: [recvbuf[0 .. datalen)]. *)
Definition contents (b : Buf) : list byte :=
  firstn (Z.to_nat (datalen b)) (recvbuf b).

(** [p[off .. off + len)] *)
Definition slice (p : list byte) (off len : Z) : list byte :=
  firstn (Z.to_nat len) (skipn (Z.to_nat off) p).

(** The block after [realloc(p, newsize)] succeeded. *)
Definition resized (p : list byte) (newsize : Z) (fill : byte) : list byte :=
  firstn (Z.to_nat newsize) p ++ repeat fill (Z.to_nat newsize - length p).

(** [malloc(size)] *)
Definition malloc (size : Z) : M (option (list byte)) :=
  fun w =>
    let (ok, q) := pop true (alloc_q w) in
    let w := set_alloc_q q w in
    if ok then (Next (Some (repeat (junk w) (Z.to_nat size))), set_held (RBuf :: held w) w)
    else (Next None, w).

(** [realloc(p, newsize)]: on failure the old block is left as it is. *)
Definition realloc (p : list byte) (newsize : Z) : M (option (list byte)) :=
  fun w =>
    let (ok, q) := pop true (alloc_q w) in
    let w := set_alloc_q q w in
    if ok then (Next (Some (resized p newsize (junk w))), w) else (Next None, w).

(** [while (datalen + (n - temp_offset) >= newsize) newsize *= 2;]
    A [size_t] doubled 64 times is 0 and stays 0, so a loop that has
    not left by then never leaves. *)
Fixpoint grow_size (fuel : nat) (need newsize : Z) : option Z :=
  if need >=? newsize then
    match fuel with
    | O => None
    | S k => grow_size k need (wrap (newsize * 2))
    end
  else Some newsize.

(** The three releases every early exit of the handler performs:
    [free(recvbuf); fclose(fp); close(clientfd); return;] *)
Definition bail_out {A} : M A :=
  release RBuf ;; fclose RFile ;; release RSock ;; return_.

(** "Resize recvbuf if needed" *)
Definition resize_if_needed (b : Buf) (n temp_offset : Z) : M Buf :=
  if wrap (datalen b + wrap (n - temp_offset)) >=? bufsize b then
    match grow_size (Z.to_nat SIZE_BITS)
                    (wrap (datalen b + wrap (n - temp_offset)))
                    (wrap (bufsize b * 2)) with
    | None => hang
    | Some newsize =>
        newbuf <- realloc (recvbuf b) newsize ;;
        match newbuf with
        | None => syslog LOG_ERR "realloc failed" ;; bail_out
        | Some p => ret (mkBuf p newsize (datalen b))
        end
    end
  else ret b.

(** [memcpy(recvbuf + datalen, temp + temp_offset, copylen); datalen += copylen;] *)
Definition copy_in (b : Buf) (temp : list byte) (temp_offset copylen : Z) : M Buf :=
  if datalen b + copylen <=? Z.of_nat (length (recvbuf b)) then
    ret (mkBuf (firstn (Z.to_nat (datalen b)) (recvbuf b)
                  ++ slice temp temp_offset copylen
                  ++ skipn (Z.to_nat (datalen b + copylen)) (recvbuf b))
               (bufsize b)
               (wrap (datalen b + copylen)))
  else overrun.

(** [while ((nn = fread(sendbuf, 1, sizeof(sendbuf), fp2)) > 0)
      if (send(clientfd, sendbuf, nn, 0) < 0) { syslog(...); break; }]
    [pos] is the read offset of [fp2]. *)
Fixpoint reply_loop (fuel : nat) (pos : nat) : M unit :=
  fun w =>
    let sendbuf := firstn SENDBUF_SIZE (skipn pos (file w)) in
    let nn := Z.of_nat (length sendbuf) in
    if nn >? 0 then
      match fuel with
      | O => (Hang, w)
      | S k =>
          (failed <- send_lt_0 sendbuf ;;
           if failed : bool
           then syslog LOG_ERR "Failed to send data to client"
           else reply_loop k (pos + length sendbuf)%nat) w
      end
    else (Next tt, w).

(** The body of [if (recvbuf[i] == '\n')]: append the packet to the data
    file, then send the whole file back. *)
Definition process_packet (pkt : list byte) : M unit :=
  fwrite_fflush pkt ;;
  fp2 <- fopen RReader ;;
  if negb fp2 then
    syslog LOG_ERR ("Failed to open " ++ DATAFILE ++ " for reading")%string ;;
    bail_out
  else
    (fun w => reply_loop (length (file w)) 0 w) ;;
    fclose RReader.

(** [for (size_t i = 0; i < datalen; ++i)], returning the final [start]. *)
Fixpoint scan_loop (fuel : nat) (b : Buf) (i start : Z) : M Z :=
  if i <? datalen b then
    match fuel with
    | O => hang
    | S k =>
        if is_nl (nth (Z.to_nat i) (recvbuf b) "000"%byte) then
          let pktlen := i - start + 1 in
          process_packet (slice (recvbuf b) start pktlen) ;;
          scan_loop k b (i + 1) (i + 1)
        else scan_loop k b (i + 1) start
    end
  else ret start.

(** "Shift leftover data to the start of the buffer for next recv()" *)
Definition shift_leftover (b : Buf) (start : Z) : Buf :=
  if (start >? 0) && (start <? datalen b) then
    mkBuf (slice (recvbuf b) start (datalen b - start)
             ++ skipn (Z.to_nat (datalen b - start)) (recvbuf b))
          (bufsize b)
          (datalen b - start)
  else if start =? datalen b then mkBuf (recvbuf b) (bufsize b) 0
  else b.

(** [while (temp_offset < n) { ... }] for one received chunk [temp]. *)
Fixpoint ingest_loop (fuel : nat) (temp : list byte) (n : Z)
         (b : Buf) (temp_offset : Z) : M Buf :=
  if temp_offset <? n then
    match fuel with
    | O => hang
    | S k =>
        b <- resize_if_needed b n temp_offset ;;
        let copylen := n - temp_offset in
        b <- copy_in b temp temp_offset copylen ;;
        let temp_offset := temp_offset + copylen in
        start <- scan_loop (Z.to_nat (datalen b)) b 0 0 ;;
        ingest_loop k temp n (shift_leftover b start) temp_offset
    end
  else ret b.

Definition ingest (b : Buf) (temp : list byte) : M Buf :=
  let n := Z.of_nat (length temp) in
  ingest_loop (Z.to_nat n) temp n b 0.

(** [while (!exit_requested && (n = recv(clientfd, temp, sizeof(temp), 0)) > 0)]
    The script lists what the successive [recv] calls deliver; an empty
    entry, or the end of the script, is a [recv] that returned 0 or -1. *)
Fixpoint recv_loop (b : Buf) (script : list (list byte)) : M Buf :=
  stop <- exit_requested ;;
  if stop : bool then ret b
  else
    match script with
    | [] => ret b
    | temp :: script' =>
        if Z.of_nat (length temp) >? 0 then
          b <- ingest b temp ;;
          recv_loop b script'
        else ret b
    end.

(** An accepted connection: the peer's address and what it will send. *)
Record Conn := mkConn {
  client_ip : string;
  incoming  : list (list byte)
}.

Definition handle_client (c : Conn) : M unit :=
  syslog LOG_INFO ("Accepted connection from " ++ client_ip c)%string ;;
  fp <- fopen RFile ;;
  if negb fp then
    syslog LOG_ERR ("Failed to open " ++ DATAFILE)%string ;;
    release RSock ;;
    return_
  else
    let bufsize := 1024 in
    recvbuf <- malloc bufsize ;;
    match recvbuf with
    | None =>
        syslog LOG_ERR "malloc failed" ;;
        fclose RFile ;;
        release RSock ;;
        return_
    | Some p =>
        recv_loop (mkBuf p bufsize 0) (incoming c) ;;
        release RBuf ;;
        fclose RFile ;;
        release RSock ;;
        syslog LOG_INFO ("Closed connection from " ++ client_ip c)%string
    end.

(** What successive [accept] calls return. *)
Inductive AcceptResult :=
| Accepted (c : Conn)
| AcceptFailed.

(** [while (!exit_requested) { accept ...; handle_client ...; }]
    When no connection is left to accept, the server sits in [accept]
    until the signal arrives; [accept] then fails with the flag set. *)
Fixpoint accept_loop (script : list AcceptResult) : M unit :=
  stop <- exit_requested ;;
  if stop : bool then ret tt
  else
    match script with
    | [] => (fun w => (Next tt, set_sig (Some O) w))
    | AcceptFailed :: script' =>
        stop <- exit_requested ;;
        if stop : bool then ret tt
        else perror "accept" ;; accept_loop script'
    | Accepted c :: script' =>
        acquire RSock ;;
        call (handle_client c) ;;
        accept_loop script'
    end.

Definition listen_socket (script : list AcceptResult) : M Z :=
  accept_loop script ;;
  ret 0.

(** ** The older variant: [main] of [server/aesdassignment.c]

    One message per connection: every received chunk is written to the
    file as it comes, the first chunk holding a newline ends the
    reading, and the file is then sent back line by line. *)

Module Assignment.

(** [sizeof(buffer)] *)
Definition BUFFER_SIZE : nat := 1024.

(** [strchr(buffer, '\n') != NULL] on the NUL-terminated [buffer]. *)
Fixpoint strchr_nl (buffer : list byte) : bool :=
  match buffer with
  | [] => false
  | c :: rest =>
      if Byte.eqb c x00 then false
      else if is_nl c then true
      else strchr_nl rest
  end.

(** The bytes [strlen] counts: those before the first NUL. *)
Fixpoint c_string (buffer : list byte) : list byte :=
  match buffer with
  | [] => []
  | c :: rest => if Byte.eqb c x00 then [] else c :: c_string rest
  end.

(** [fgets]: at most [n] bytes, ending behind the first newline;
    returns the line and what is left of the file. *)
Fixpoint fgets (n : nat) (s : list byte) : list byte * list byte :=
  match n, s with
  | O, _ => ([], s)
  | _, [] => ([], [])
  | S k, c :: s' =>
      if is_nl c then ([c], s')
      else let (line, rest) := fgets k s' in (c :: line, rest)
  end.

(** [while ((bytes = recv(...)) > 0) { fwrite; fflush; if (strchr) break; }]
    returning [newline_found]. *)
Fixpoint recv_loop (script : list (list byte)) : M bool :=
  match script with
  | [] => ret false
  | buffer :: script' =>
      if Z.of_nat (length buffer) >? 0 then
        fwrite_fflush buffer ;;
        if strchr_nl buffer then ret true else recv_loop script'
      else ret false
  end.

(** [while (fgets(buffer, sizeof(buffer), data_file) != NULL)
      send(client_fd, buffer, strlen(buffer), 0);]
    over what is left to read of the file. *)
Fixpoint reply_loop (fuel : nat) (left : list byte) : M unit :=
  match left with
  | [] => ret tt
  | _ :: _ =>
      match fuel with
      | O => hang
      | S k =>
          let (buffer, left') := fgets (BUFFER_SIZE - 1) left in
          send_lt_0 (c_string buffer) ;;
          reply_loop k left'
      end
  end.

(** The body of the accept loop once a connection is accepted.  The
    [strerror] text of the log line for a failed [fopen] is left out. *)
Definition serve_connection (c : Conn) : M unit :=
  syslog LOG_INFO ("Accepted connection from " ++ client_ip c)%string ;;
  data_file <- fopen RFile ;;
  if negb data_file then
    syslog LOG_ERR "File open failed" ;;
    release RSock
  else
    newline_found <- recv_loop (incoming c) ;;
    (if newline_found : bool
     then fun w => reply_loop (length (file w)) (file w) w
     else ret tt) ;;
    fclose RFile ;;
    release RSock ;;
    syslog LOG_INFO ("Closed connection from " ++ client_ip c)%string.

End Assignment.

(** ** Reference definitions

    The Packet Reassembler as the specification words it (section 4.1):
    cut the stream after every delimiter, keep what follows the last
    one.  [acc] is the partial packet carried over so far. *)

Fixpoint split_acc (acc s : list byte) : list (list byte) * list byte :=
  match s with
  | [] => ([], acc)
  | c :: s' =>
      if is_nl c then
        let (ps, r) := split_acc [] s' in ((acc ++ [c]) :: ps, r)
      else split_acc (acc ++ [c]) s'
  end.

Definition packets_of (s : list byte) : list (list byte) := fst (split_acc [] s).
Definition leftover_of (s : list byte) : list byte := snd (split_acc [] s).

Definition no_nl (s : list byte) : Prop := Forall (fun c => is_nl c = false) s.

(** The pieces in which [fread] hands a file of content [s] to [send]. *)
Fixpoint blocks (fuel : nat) (s : list byte) : list (list byte) :=
  match fuel with
  | O => []
  | S k =>
      match s with
      | [] => []
      | _ => firstn SENDBUF_SIZE s :: blocks k (skipn SENDBUF_SIZE s)
      end
  end.

Definition reply_blocks (s : list byte) : list (list byte) := blocks (length s) s.

(** The send loop over the blocks still to be read. *)
Fixpoint send_blocks (bs : list (list byte)) : M unit :=
  match bs with
  | [] => ret tt
  | sendbuf :: bs' =>
      failed <- send_lt_0 sendbuf ;;
      if failed : bool
      then syslog LOG_ERR "Failed to send data to client"
      else send_blocks bs'
  end.

(** What serving packet [p] looks like from outside when nothing fails
    and the file held [f] before. *)
Definition packet_events (f p : list byte) : list Event :=
  Append p true :: map Sent (reply_blocks (f ++ p)).

Fixpoint serve_events (f : list byte) (ps : list (list byte)) : list Event :=
  match ps with
  | [] => []
  | p :: ps' => packet_events f p ++ serve_events (f ++ p) ps'
  end.

Definition serve1 (w : World) (p : list byte) : World :=
  set_trace (trace w ++ packet_events (file w) p) (set_file (file w ++ p) w).

Definition served (ps : list (list byte)) (w : World) : World :=
  fold_left serve1 ps w.

(** No signal pending and no failure scheduled. *)
Definition calm (w : World) : Prop :=
  sig w = None /\ alloc_q w = [] /\ fopen_q w = [] /\
  fwrite_q w = [] /\ send_q w = [].

(** What one [recv] into [temp] can deliver while the peer is there. *)
Definition valid_chunk (c : list byte) : Prop :=
  (0 < length c <= Z.to_nat TEMP_SIZE)%nat.

(** The state of the receive buffer between two [recv] calls. *)
Record buf_inv (b : Buf) : Prop := mk_buf_inv {
  inv_len_nonneg : 0 <= datalen b;
  inv_room       : datalen b < bufsize b;
  inv_block      : Z.of_nat (length (recvbuf b)) = bufsize b;
  inv_min        : 1024 <= bufsize b;
  inv_no_nl      : no_nl (contents b)
}.

(** A run that is still in the handler, or has left it by [return];
    never one that hangs or writes out of bounds. *)
Definition ends_well {A} (P : A -> World -> Prop) (r : Flow A * World) : Prop :=
  match r with
  | (Next a, w) => P a w
  | (Return, _) => True
  | (Hang, _) | (Overrun, _) => False
  end.

(** The packets handed to the store, in order, as read off a trace. *)
Fixpoint appended (t : list Event) : list (list byte) :=
  match t with
  | [] => []
  | Append p _ :: t' => p :: appended t'
  | _ :: t' => appended t'
  end.

(** The bytes put on the wire, in order, as read off a trace. *)
Fixpoint wire (t : list Event) : list byte :=
  match t with
  | [] => []
  | Sent s :: t' => s ++ wire t'
  | _ :: t' => wire t'
  end.

(** What the scan of [mem[0 .. len)] has still to yield when it stands
    at index [i] with the last cut at [start]. *)
Definition scan_ref (mem : list byte) (len i start : nat)
  : list (list byte) * list byte :=
  split_acc (firstn (i - start) (skipn start mem)) (firstn (len - i) (skipn i mem)).

(** The world after [free(recvbuf); fclose(fp); close(clientfd);]. *)
Definition bailed (w : World) : World :=
  set_held (release_one RSock (release_one RFile (release_one RBuf (held w)))) w.

(** The buffer after the resize step for a chunk [temp], when the
    allocator obliges and fresh memory holds [fill]. *)
Definition grown (b : Buf) (temp : list byte) (fill : byte) : Buf :=
  if datalen b + Z.of_nat (length temp) >=? bufsize b
  then mkBuf (resized (recvbuf b) (2 * bufsize b) fill) (2 * bufsize b) (datalen b)
  else b.

(** The buffer after [temp] has been copied behind the buffered bytes. *)
Definition after_copy (b : Buf) (temp : list byte) : Buf :=
  mkBuf (firstn (Z.to_nat (datalen b)) (recvbuf b)
           ++ temp
           ++ skipn (Z.to_nat (datalen b + Z.of_nat (length temp))) (recvbuf b))
        (bufsize b)
        (datalen b + Z.of_nat (length temp)).

(** The buffer after the scan and the shift that follow the copy. *)
Definition after_scan (b : Buf) : Buf :=
  shift_leftover b (datalen b - Z.of_nat (length (leftover_of (contents b)))).

(** The buffer one full iteration of the receive loop leaves behind. *)
Definition next_buf (b : Buf) (temp : list byte) (fill : byte) : Buf :=
  after_scan (after_copy (grown b temp fill) temp).

(** The buffer after the chunks of [script] have gone through the loop. *)
Definition run_buf (b : Buf) (script : list (list byte)) (fill : byte) : Buf :=
  fold_left (fun b temp => next_buf b temp fill) script b.

(** A freshly started server that has just accepted a connection: the
    data file is empty, nothing is logged, nothing is going to fail. *)
Definition fresh_world (fill : byte) : World :=
  mkWorld [] [] [RSock] fill None [] [] [] [].

(** A packet: bytes free of the delimiter, closed by one delimiter. *)
Definition is_packet (p : list byte) : Prop :=
  exists body, p = body ++ [newline] /\ no_nl body.


(** "After a failed append nothing is sent and nothing more is
    appended", as a property of a trace. *)
Definition quiet_after_append_failure (t : list Event) : Prop :=
  forall pre pkt post,
    t = pre ++ Append pkt false :: post -> appended post = [] /\ wire post = [].

(** What the file holds after the append of [p] has been attempted. *)
Definition file_after_append (p : list byte) (w : World) : list byte :=
  if hd true (fwrite_q w) then file w ++ p else file w.

(** [newsize] after [k] rounds of [newsize *= 2]. *)
Fixpoint doubled (k : nat) (newsize : Z) : Z :=
  match k with
  | O => newsize
  | S k' => doubled k' (wrap (newsize * 2))
  end.

(** The handler's work on a list of packets, one after the other. *)
Fixpoint process_all (ps : list (list byte)) : M unit :=
  match ps with
  | [] => ret tt
  | p :: ps' => process_packet p ;; process_all ps'
  end.

(** No signal pending and an allocator that obliges; the file and the
    socket may do as they please. *)
Definition steady (w : World) : Prop := sig w = None /\ alloc_q w = [].

(** [handle_client] with the receive loop replaced by the work on the
    packets [ps]. *)
Definition handle_packets (ip : string) (ps : list (list byte)) : M unit :=
  syslog LOG_INFO ("Accepted connection from " ++ ip)%string ;;
  fp <- fopen RFile ;;
  if negb fp then
    syslog LOG_ERR ("Failed to open " ++ DATAFILE)%string ;;
    release RSock ;;
    return_
  else
    acquire RBuf ;;
    process_all ps ;;
    release RBuf ;;
    fclose RFile ;;
    release RSock ;;
    syslog LOG_INFO ("Closed connection from " ++ ip)%string.

(** The buffer a fresh connection starts with. *)
Definition fresh_buf (fill : byte) : Buf :=
  mkBuf (repeat fill (Z.to_nat 1024)) 1024 0.

(** ** Definitions for the properties beyond the claims *)

(** The bytes that reached the file, as read off a stretch of trace:
    the packets of the appends that succeeded. *)
Fixpoint stored (t : list Event) : list byte :=
  match t with
  | [] => []
  | Append p true :: t' => p ++ stored t'
  | _ :: t' => stored t'
  end.

(** [w'] comes after [w]: the log has only been extended, and the file
    has grown by exactly the appends that succeeded meanwhile. *)
Definition grows (w w' : World) : Prop :=
  exists evs, trace w' = trace w ++ evs /\ file w' = file w ++ stored evs.

(** ... and the signal flag has not been read. *)
Definition quietly (w w' : World) : Prop := grows w w' /\ sig w' = sig w.

(** What is left of [h] after [free(recvbuf); fclose(fp); close(clientfd)]. *)
Definition released (h : list Resource) : list Resource :=
  release_one RSock (release_one RFile (release_one RBuf h)).

(** A piece of the handler that keeps [R] between the worlds before and
    after, holds afterwards what it held before when it falls through,
    and has released buffer, file and socket when it returns. *)
Definition tidy {A} (R : World -> World -> Prop) (w : World)
           (r : Flow A * World) : Prop :=
  match r with
  | (Next _, w') => R w w' /\ held w' = held w
  | (Return, w') => R w w' /\ held w' = released (held w)
  | (Hang, w') | (Overrun, w') => R w w'
  end.

(** A connection whose chunks fit [temp] and whose stream is of a size
    a machine can hold. *)
Definition servable (c : Conn) : Prop :=
  Forall (fun t => (length t <= Z.to_nat TEMP_SIZE)%nat) (incoming c) /\
  Z.of_nat (length (concat (incoming c))) < 2 ^ 62.


(** What a run of the accept loop puts into the log when nothing fails
    but some [accept] calls, the file holding [f] at the start. *)
Fixpoint script_events (f : list byte) (script : list AcceptResult) : list Event :=
  match script with
  | [] => []
  | AcceptFailed :: script' => Perror "accept" :: script_events f script'
  | Accepted c :: script' =>
      Syslog LOG_INFO ("Accepted connection from " ++ client_ip c)
        :: serve_events f (packets_of (concat (incoming c)))
        ++ Syslog LOG_INFO ("Closed connection from " ++ client_ip c)
        :: script_events (f ++ concat (packets_of (concat (incoming c)))) script'
  end.

(** The packets of all the connections of a script, in order. *)
Fixpoint script_packets (script : list AcceptResult) : list (list byte) :=
  match script with
  | [] => []
  | AcceptFailed :: script' => script_packets script'
  | Accepted c :: script' =>
      packets_of (concat (incoming c)) ++ script_packets script'
  end.

(** The connections of an accept script deliver what [recv] can return,
    and less than 2^62 bytes each. *)
Definition script_valid (script : list AcceptResult) : Prop :=
  Forall (fun r => match r with
                   | Accepted c =>
                       Forall valid_chunk (incoming c) /\
                       Z.of_nat (length (concat (incoming c))) < 2 ^ 62
                   | AcceptFailed => True
                   end) script.

(** A chunk the receive loop of the older variant reads over: not
    empty, and no newline that [strchr] can see. *)
Definition unfinished (b : list byte) : Prop :=
  (0 < length b)%nat /\ Assignment.strchr_nl b = false.



(** * Properties *)

Lemma SIZE_MOD_val : SIZE_MOD = 18446744073709551616.
Proof. reflexivity. Qed.

(** ** The doubling loop

    The fuel of [grow_size] is enough: a loop that has used it up is a
    loop that never ends. *)

Lemma grow_size_None (fuel : nat) (need newsize : Z) :
  grow_size fuel need newsize = None <->
  forall j, (j <= fuel)%nat -> doubled j newsize <= need.
Proof.
  revert newsize; induction fuel as [|k IH]; intros newsize; cbn [grow_size].
  - destruct (need >=? newsize) eqn:E.
    + apply Z.geb_le in E. split; [|reflexivity].
      intros _ j Hj. replace j with 0%nat by lia. exact E.
    + rewrite Z.geb_leb in E. apply Z.leb_gt in E. split; [discriminate|].
      intros H. specialize (H 0%nat (le_n _)). cbn in H. lia.
  - destruct (need >=? newsize) eqn:E.
    + apply Z.geb_le in E. rewrite IH. split.
      * intros H [|j] Hj; [exact E|]. cbn [doubled]. apply H. lia.
      * intros H j Hj. apply (H (S j)). lia.
    + rewrite Z.geb_leb in E. apply Z.leb_gt in E. split; [discriminate|].
      intros H. specialize (H 0%nat (Nat.le_0_l _)). cbn in H. lia.
Qed.

Lemma doubled_closed_form (k : nat) (newsize : Z) :
  doubled (S k) newsize = (newsize * 2 ^ Z.of_nat (S k)) mod SIZE_MOD.
Proof.
  revert newsize; induction k as [|k IH]; intros newsize.
  - cbn [doubled]. unfold wrap. reflexivity.
  - change (doubled (S (S k)) newsize) with (doubled (S k) (wrap (newsize * 2))).
    rewrite IH. unfold wrap. rewrite Z.mul_mod_idemp_l by (rewrite SIZE_MOD_val; lia).
    f_equal. rewrite (Nat2Z.inj_succ (S k)), Z.pow_succ_r by lia. ring.
Qed.

Lemma doubled_vanishes (k : nat) (newsize : Z) :
  (Z.to_nat SIZE_BITS <= k)%nat -> doubled k newsize = 0.
Proof.
  intros H. destruct k as [|k]; [cbn in H; lia|].
  rewrite doubled_closed_form.
  replace (Z.of_nat (S k)) with (SIZE_BITS + (Z.of_nat (S k) - SIZE_BITS)) by lia.
  unfold SIZE_BITS in *.
  rewrite Z.pow_add_r by lia.
  unfold SIZE_MOD, SIZE_BITS.
  rewrite Z.mul_assoc, (Z.mul_comm newsize), <- Z.mul_assoc.
  rewrite Z.mul_comm. apply Z.mod_mul. lia.
Qed.

Lemma grow_size_hangs_for_good (need newsize : Z) :
  grow_size (Z.to_nat SIZE_BITS) need newsize = None ->
  forall fuel, grow_size fuel need newsize = None.
Proof.
  intros H fuel. rewrite grow_size_None in *.
  intros j Hj. destruct (Nat.le_gt_cases j (Z.to_nat SIZE_BITS)) as [Hle | Hgt].
  - now apply H.
  - rewrite doubled_vanishes by lia.
    rewrite <- (doubled_vanishes (Z.to_nat SIZE_BITS) newsize) by lia.
    apply H. lia.
Qed.

(** ** Lists and slices *)

Lemma firstn_S_skipn (l : list byte) (i n : nat) (d : byte) :
  (i < length l)%nat ->
  firstn (S n) (skipn i l) = nth i l d :: firstn n (skipn (S i) l).
Proof.
  revert l; induction i as [|i IH]; intros [|x l] H; simpl in H; try lia.
  - reflexivity.
  - simpl skipn. rewrite IH by lia. reflexivity.
Qed.

Lemma firstn_snoc (l : list byte) (k : nat) (d : byte) :
  (k < length l)%nat -> firstn (S k) l = firstn k l ++ [nth k l d].
Proof.
  revert l; induction k as [|k IH]; intros [|x l] H; simpl in H; try lia.
  - reflexivity.
  - simpl. f_equal. apply IH. lia.
Qed.

Lemma slice_snoc (l : list byte) (start i : nat) (d : byte) :
  (start <= i < length l)%nat ->
  firstn (S (i - start)) (skipn start l)
  = firstn (i - start) (skipn start l) ++ [nth i l d].
Proof.
  intros H. rewrite (firstn_snoc _ _ d).
  - rewrite nth_skipn. do 3 f_equal. lia.
  - rewrite length_skipn. lia.
Qed.

(** ** The reference reassembler *)

Lemma split_acc_concat (s acc : list byte) :
  concat (fst (split_acc acc s)) ++ snd (split_acc acc s) = acc ++ s.
Proof.
  revert acc; induction s as [|c s IH]; intros acc; simpl.
  - now rewrite app_nil_r.
  - destruct (is_nl c).
    + specialize (IH []). destruct (split_acc [] s) as [ps r]; simpl in *.
      rewrite <- !app_assoc, IH. reflexivity.
    + rewrite IH, <- app_assoc. reflexivity.
Qed.

Lemma split_acc_leftover_no_nl (s acc : list byte) :
  no_nl acc -> no_nl (snd (split_acc acc s)).
Proof.
  revert acc; induction s as [|c s IH]; intros acc Hacc; simpl; auto.
  destruct (is_nl c) eqn:E.
  - specialize (IH [] (Forall_nil _)). destruct (split_acc [] s); exact IH.
  - apply IH. apply Forall_app; split; auto.
Qed.

Lemma split_acc_no_nl (s acc : list byte) :
  no_nl s -> split_acc acc s = ([], acc ++ s).
Proof.
  revert acc; induction s as [|c s IH]; intros acc H; simpl.
  - now rewrite app_nil_r.
  - inversion H as [|? ? Hc Hs]; subst. rewrite Hc, IH by assumption.
    now rewrite <- app_assoc.
Qed.

Lemma split_acc_shift (a s acc : list byte) :
  no_nl a -> split_acc acc (a ++ s) = split_acc (acc ++ a) s.
Proof.
  revert acc; induction a as [|c a IH]; intros acc H; simpl.
  - now rewrite app_nil_r.
  - inversion H as [|? ? Hc Ha]; subst. rewrite Hc, IH by assumption.
    now rewrite <- app_assoc.
Qed.

Lemma split_acc_app (s1 s2 acc : list byte) :
  split_acc acc (s1 ++ s2)
  = (fst (split_acc acc s1) ++ fst (split_acc (snd (split_acc acc s1)) s2),
     snd (split_acc (snd (split_acc acc s1)) s2)).
Proof.
  revert acc; induction s1 as [|c s1 IH]; intros acc; simpl.
  - destruct (split_acc acc s2); reflexivity.
  - destruct (is_nl c).
    + rewrite (IH []). destruct (split_acc [] s1) as [ps r]; reflexivity.
    + apply IH.
Qed.

Lemma packets_of_app (s1 s2 : list byte) :
  packets_of (s1 ++ s2)
  = packets_of s1 ++ fst (split_acc (leftover_of s1) s2).
Proof. unfold packets_of, leftover_of. now rewrite split_acc_app. Qed.

Lemma leftover_of_app (s1 s2 : list byte) :
  leftover_of (s1 ++ s2) = snd (split_acc (leftover_of s1) s2).
Proof. unfold leftover_of. now rewrite split_acc_app. Qed.

Lemma leftover_of_no_nl (s : list byte) : no_nl (leftover_of s).
Proof. apply split_acc_leftover_no_nl. constructor. Qed.

Lemma split_acc_from_nil (acc s : list byte) :
  no_nl acc -> split_acc acc s = split_acc [] (acc ++ s).
Proof. intros H. now rewrite split_acc_shift. Qed.

(** ** Sending the file back *)

Lemma SENDBUF_SIZE_pos : (0 < SENDBUF_SIZE)%nat.
Proof. unfold SENDBUF_SIZE. lia. Qed.

Lemma blocks_concat (fuel : nat) (s : list byte) :
  (length s <= fuel)%nat -> concat (blocks fuel s) = s.
Proof.
  revert s; induction fuel as [|k IH]; intros s H.
  - destruct s; simpl in *; [reflexivity | lia].
  - destruct s as [|x s]; [reflexivity|].
    cbn [blocks concat]. rewrite IH.
    + apply firstn_skipn.
    + rewrite length_skipn. pose proof SENDBUF_SIZE_pos.
      change (length (x :: s)) with (S (length s)) in *. lia.
Qed.

Lemma reply_blocks_concat (s : list byte) : concat (reply_blocks s) = s.
Proof. apply blocks_concat. lia. Qed.

Lemma wire_app (t1 t2 : list Event) : wire (t1 ++ t2) = wire t1 ++ wire t2.
Proof.
  induction t1 as [|e t1 IH]; simpl; [reflexivity|].
  destruct e; rewrite IH; try reflexivity. now rewrite app_assoc.
Qed.

Lemma wire_map_Sent (bs : list (list byte)) : wire (map Sent bs) = concat bs.
Proof. induction bs as [|b bs IH]; simpl; [reflexivity|]. now rewrite IH. Qed.

Lemma appended_app (t1 t2 : list Event) :
  appended (t1 ++ t2) = appended t1 ++ appended t2.
Proof.
  induction t1 as [|e t1 IH]; simpl; [reflexivity|].
  destruct e; rewrite IH; reflexivity.
Qed.

Lemma appended_map_Sent (bs : list (list byte)) : appended (map Sent bs) = [].
Proof. induction bs; simpl; auto. Qed.

(** A [send] call changes nothing but the log and its own script. *)
Lemma send_lt_0_frame (blk : list byte) (w : World) :
  exists failed w',
    send_lt_0 blk w = (Next failed, w') /\
    file w' = file w /\ held w' = held w /\ junk w' = junk w /\
    sig w' = sig w /\ alloc_q w' = alloc_q w /\ fopen_q w' = fopen_q w /\
    fwrite_q w' = fwrite_q w.
Proof.
  unfold send_lt_0. destruct (pop SentAll (send_q w)) as [[| k |] q];
    eexists; eexists; (split; [reflexivity|]); simpl; repeat split.
Qed.

(** The offsets [fread] visits are the block boundaries. *)
Lemma reply_loop_send_blocks (fuel pos : nat) (w : World) :
  (length (file w) - pos <= fuel)%nat ->
  reply_loop fuel pos w = send_blocks (blocks fuel (skipn pos (file w))) w.
Proof.
  revert pos w; induction fuel as [|k IH]; intros pos w H.
  - cbn [reply_loop blocks send_blocks].
    rewrite skipn_all2 by lia. rewrite firstn_nil. reflexivity.
  - cbn [reply_loop blocks].
    pose proof (length_skipn pos (file w)) as Hlen.
    destruct (skipn pos (file w)) as [|x rest] eqn:E.
    + rewrite firstn_nil. reflexivity.
    + set (sendbuf := firstn SENDBUF_SIZE (x :: rest)).
      assert (Hsb : length sendbuf = Nat.min SENDBUF_SIZE (length (x :: rest)))
        by apply length_firstn.
      pose proof SENDBUF_SIZE_pos as Hpos.
      change (length (x :: rest)) with (S (length rest)) in Hsb, Hlen.
      replace (Z.of_nat (length sendbuf) >? 0) with true
        by (symmetry; apply Z.gtb_lt; lia).
      cbn [send_blocks]. unfold bind.
      destruct (send_lt_0_frame sendbuf w) as (failed & w' & -> & Hf & _).
      destruct failed; [reflexivity|].
      rewrite IH by (rewrite Hf; lia).
      rewrite Hf. do 2 f_equal.
      rewrite <- E, skipn_skipn.
      destruct (Nat.le_gt_cases SENDBUF_SIZE (S (length rest))).
      * f_equal. lia.
      * rewrite !skipn_all2 by lia. reflexivity.
Qed.

Lemma send_blocks_next (bs : list (list byte)) (w : World) :
  exists w',
    send_blocks bs w = (Next tt, w') /\
    file w' = file w /\ held w' = held w /\ junk w' = junk w /\
    sig w' = sig w /\ alloc_q w' = alloc_q w /\ fopen_q w' = fopen_q w /\
    fwrite_q w' = fwrite_q w.
Proof.
  revert w; induction bs as [|b bs IH]; intros w.
  - exists w. repeat split.
  - cbn [send_blocks]. unfold bind.
    destruct (send_lt_0_frame b w)
      as (failed & w1 & -> & Hf & Hh & Hj & Hs & Ha & Ho & Hw).
    destruct failed.
    + eexists; split; [reflexivity|]. cbn. repeat split; assumption.
    + destruct (IH w1) as (w2 & -> & Hf2 & Hh2 & Hj2 & Hs2 & Ha2 & Ho2 & Hw2).
      exists w2. split; [reflexivity|].
      repeat split; congruence.
Qed.

Lemma send_blocks_calm (bs : list (list byte)) (w : World) :
  send_q w = [] ->
  send_blocks bs w = (Next tt, set_trace (trace w ++ map Sent bs) w).
Proof.
  revert w; induction bs as [|b bs IH]; intros w Hq.
  - cbn. rewrite app_nil_r. destruct w; reflexivity.
  - cbn [send_blocks]. unfold bind, send_lt_0. rewrite Hq. cbn [pop].
    rewrite IH by reflexivity.
    destruct w; cbn in *; subst. unfold set_trace; cbn.
    now rewrite <- app_assoc.
Qed.

Lemma bind_next {A B} (m : M A) (k : A -> M B) (w w' : World) (a : A) :
  m w = (Next a, w') -> bind m k w = k a w'.
Proof. unfold bind. now intros ->. Qed.

Lemma bind_return {A B} (m : M A) (k : A -> M B) (w w' : World) :
  m w = (Return, w') -> bind m k w = (Return, w').
Proof. unfold bind. now intros ->. Qed.

Lemma fwrite_fflush_next (p : list byte) (w : World) :
  exists w', fwrite_fflush p w = (Next tt, w').
Proof.
  unfold fwrite_fflush. destruct (pop true (fwrite_q w)) as [ok q].
  eexists. reflexivity.
Qed.

Lemma fopen_next (r : Resource) (w : World) :
  exists ok w', fopen r w = (Next ok, w').
Proof.
  unfold fopen. destruct (pop true (fopen_q w)) as [[|] q];
    eexists; eexists; reflexivity.
Qed.

(** Serving a packet leaves the handler running or ends it; it neither
    hangs nor touches memory. *)
Lemma process_packet_flow (p : list byte) (w : World) :
  exists w', process_packet p w = (Next tt, w') \/ process_packet p w = (Return, w').
Proof.
  unfold process_packet.
  destruct (fwrite_fflush_next p w) as (w1 & E1). rewrite (bind_next _ _ _ _ _ E1).
  destruct (fopen_next RReader w1) as (ok & w2 & E2). rewrite (bind_next _ _ _ _ _ E2).
  destruct ok; cbn [negb].
  - unfold bind at 1.
    rewrite (reply_loop_send_blocks _ 0 w2) by lia.
    destruct (send_blocks_next (blocks (length (file w2)) (skipn 0 (file w2))) w2)
      as (w3 & -> & _).
    eexists. left. reflexivity.
  - eexists. right. reflexivity.
Qed.

Lemma calm_serve1 (w : World) (p : list byte) : calm w -> calm (serve1 w p).
Proof. unfold calm, serve1. destruct w; cbn. tauto. Qed.

Lemma calm_served (ps : list (list byte)) (w : World) : calm w -> calm (served ps w).
Proof.
  revert w; induction ps as [|p ps IH]; intros w H; cbn; [assumption|].
  apply IH, calm_serve1, H.
Qed.

Lemma process_packet_calm (p : list byte) (w : World) :
  calm w -> process_packet p w = (Next tt, serve1 w p).
Proof.
  intros H. destruct w as [f t h j s a fo fw sq].
  unfold calm in H; cbn in H. destruct H as (-> & -> & -> & -> & ->).
  unfold process_packet.
  erewrite bind_next by reflexivity.
  erewrite bind_next by reflexivity.
  cbn [negb]. unfold bind at 1.
  rewrite reply_loop_send_blocks by lia.
  rewrite send_blocks_calm by reflexivity.
  unfold serve1, packet_events, reply_blocks, fclose, release, set_held, set_trace, set_file.
  cbn. now rewrite <- app_assoc.
Qed.

Lemma file_served (ps : list (list byte)) (w : World) :
  file (served ps w) = file w ++ concat ps.
Proof.
  revert w; induction ps as [|p ps IH]; intros w; cbn.
  - now rewrite app_nil_r.
  - unfold served in IH. rewrite IH. destruct w; cbn. now rewrite <- app_assoc.
Qed.

Lemma trace_served (ps : list (list byte)) (w : World) :
  trace (served ps w) = trace w ++ serve_events (file w) ps.
Proof.
  revert w; induction ps as [|p ps IH]; intros w; cbn [served fold_left serve_events].
  - now rewrite app_nil_r.
  - unfold served in IH. rewrite IH. destruct w; cbn. now rewrite <- app_assoc.
Qed.

Lemma held_served (ps : list (list byte)) (w : World) :
  held (served ps w) = held w.
Proof.
  revert w; induction ps as [|p ps IH]; intros w; cbn; auto.
  unfold served in IH. rewrite IH. destruct w; reflexivity.
Qed.

Lemma junk_served (ps : list (list byte)) (w : World) :
  junk (served ps w) = junk w.
Proof.
  revert w; induction ps as [|p ps IH]; intros w; cbn; auto.
  unfold served in IH. rewrite IH. destruct w; reflexivity.
Qed.

Lemma served_app (ps1 ps2 : list (list byte)) (w : World) :
  served (ps1 ++ ps2) w = served ps2 (served ps1 w).
Proof. apply fold_left_app. Qed.

(** ** The scan for delimiters *)

Lemma scan_ref_step (mem : list byte) (len i start : nat) (d : byte) :
  (start <= i < len)%nat -> (len <= length mem)%nat ->
  scan_ref mem len i start
  = if is_nl (nth i mem d)
    then (firstn (S (i - start)) (skipn start mem) :: fst (scan_ref mem len (S i) (S i)),
          snd (scan_ref mem len (S i) (S i)))
    else scan_ref mem len (S i) start.
Proof.
  intros Hi Hlen. unfold scan_ref.
  replace (len - i)%nat with (S (len - S i)) by lia.
  rewrite (firstn_S_skipn _ _ _ d) by lia.
  cbn [split_acc]. rewrite <- (slice_snoc _ _ _ d) by lia.
  destruct (is_nl (nth i mem d)).
  - rewrite Nat.sub_diag. cbn [firstn].
    destruct (split_acc [] (firstn (len - S i) (skipn (S i) mem))); reflexivity.
  - f_equal. f_equal. lia.
Qed.

Lemma scan_ref_done (mem : list byte) (len start : nat) :
  (start <= len <= length mem)%nat ->
  scan_ref mem len len start = ([], firstn (len - start) (skipn start mem)).
Proof.
  intros H. unfold scan_ref. now rewrite Nat.sub_diag.
Qed.

Lemma scan_ref_leftover_length (mem : list byte) (len start : nat) :
  (start <= len <= length mem)%nat ->
  length (snd (scan_ref mem len len start)) = (len - start)%nat.
Proof.
  intros H. rewrite scan_ref_done by assumption. cbn [snd].
  rewrite length_firstn, length_skipn. lia.
Qed.

Lemma scan_loop_calm (b : Buf) (fuel i start : nat) (w : World) :
  calm w ->
  0 <= datalen b ->
  (Z.to_nat (datalen b) <= length (recvbuf b))%nat ->
  (start <= i)%nat ->
  (i + fuel = Z.to_nat (datalen b))%nat ->
  scan_loop fuel b (Z.of_nat i) (Z.of_nat start) w
  = (Next (datalen b - Z.of_nat (length
             (snd (scan_ref (recvbuf b) (Z.to_nat (datalen b)) i start)))),
     served (fst (scan_ref (recvbuf b) (Z.to_nat (datalen b)) i start)) w).
Proof.
  intros Hcalm H0 Hfit. revert i start w Hcalm.
  induction fuel as [|k IH]; intros i start w Hcalm Hsi Hfuel.
  - cbn [scan_loop].
    replace (Z.of_nat i <? datalen b) with false by (symmetry; apply Z.ltb_ge; lia).
    replace i with (Z.to_nat (datalen b)) by lia.
    rewrite scan_ref_leftover_length, scan_ref_done by lia.
    cbn. unfold ret. do 2 f_equal. lia.
  - cbn [scan_loop].
    replace (Z.of_nat i <? datalen b) with true by (symmetry; apply Z.ltb_lt; lia).
    rewrite Nat2Z.id.
    rewrite (scan_ref_step _ _ _ _ "000"%byte) by lia.
    replace (Z.of_nat i + 1) with (Z.of_nat (S i)) by lia.
    destruct (is_nl (nth i (recvbuf b) "000"%byte)).
    + rewrite (bind_next _ _ _ _ _ (process_packet_calm _ w Hcalm)).
      rewrite IH by (auto using calm_serve1; lia).
      cbn [fst snd]. unfold slice. rewrite Nat2Z.id.
      replace (Z.to_nat (Z.of_nat i - Z.of_nat start + 1)) with (S (i - start)) by lia.
      reflexivity.
    + apply IH; auto; lia.
Qed.

Lemma scan_loop_any (b : Buf) (fuel i start : nat) (w : World) :
  0 <= datalen b ->
  (Z.to_nat (datalen b) <= length (recvbuf b))%nat ->
  (start <= i)%nat ->
  (i + fuel = Z.to_nat (datalen b))%nat ->
  ends_well
    (fun s _ => s = datalen b - Z.of_nat (length
                  (snd (scan_ref (recvbuf b) (Z.to_nat (datalen b)) i start))))
    (scan_loop fuel b (Z.of_nat i) (Z.of_nat start) w).
Proof.
  intros H0 Hfit. revert i start w.
  induction fuel as [|k IH]; intros i start w Hsi Hfuel.
  - cbn [scan_loop].
    replace (Z.of_nat i <? datalen b) with false by (symmetry; apply Z.ltb_ge; lia).
    replace i with (Z.to_nat (datalen b)) by lia.
    rewrite scan_ref_leftover_length by lia.
    cbn. lia.
  - cbn [scan_loop].
    replace (Z.of_nat i <? datalen b) with true by (symmetry; apply Z.ltb_lt; lia).
    rewrite Nat2Z.id.
    rewrite (scan_ref_step _ _ _ _ "000"%byte) by lia.
    replace (Z.of_nat i + 1) with (Z.of_nat (S i)) by lia.
    destruct (is_nl (nth i (recvbuf b) "000"%byte)).
    + destruct (process_packet_flow
                  (slice (recvbuf b) (Z.of_nat start) (Z.of_nat i - Z.of_nat start + 1)) w)
        as (w1 & [E | E]).
      * rewrite (bind_next _ _ _ _ _ E). cbn [snd]. apply IH; lia.
      * rewrite (bind_return _ _ _ _ E). exact I.
    + apply IH; lia.
Qed.

(** ** The buffer between two receives *)

Lemma wrap_small (x : Z) : 0 <= x < SIZE_MOD -> wrap x = x.
Proof. intros H. unfold wrap. now apply Z.mod_small. Qed.

Lemma firstn_app_exact (a t : list byte) : firstn (length a) (a ++ t) = a.
Proof.
  rewrite firstn_app, Nat.sub_diag, firstn_all. cbn. apply app_nil_r.
Qed.

Lemma skipn_app_exact (a t : list byte) : skipn (length a) (a ++ t) = t.
Proof.
  rewrite skipn_app, Nat.sub_diag, skipn_all. reflexivity.
Qed.

Lemma shift_leftover_split (pre r tail : list byte) (bs : Z) :
  let b := mkBuf (pre ++ r ++ tail) bs (Z.of_nat (length pre + length r)) in
  let b' := shift_leftover b (Z.of_nat (length pre)) in
  contents b' = r /\
  datalen b' = Z.of_nat (length r) /\
  length (recvbuf b') = length (pre ++ r ++ tail) /\
  bufsize b' = bs.
Proof.
  intros b b'. subst b b'. unfold shift_leftover. cbn [datalen recvbuf bufsize].
  destruct (Z.of_nat (length pre) >? 0) eqn:Epre;
    destruct (Z.of_nat (length pre) <? Z.of_nat (length pre + length r)) eqn:Elt;
    cbn [andb].
  - apply Z.gtb_lt in Epre. apply Z.ltb_lt in Elt.
    unfold contents, slice. cbn [datalen recvbuf bufsize].
    replace (Z.to_nat (Z.of_nat (length pre + length r) - Z.of_nat (length pre)))
      with (length r) by lia.
    rewrite Nat2Z.id, skipn_app_exact, firstn_app_exact.
    repeat split.
    + apply firstn_app_exact.
    + lia.
    + rewrite !length_app, length_skipn, !length_app. lia.
  - apply Z.ltb_ge in Elt. assert (Hr : length r = 0%nat) by lia.
    apply length_zero_iff_nil in Hr. subst r.
    replace (Z.of_nat (length pre) =? Z.of_nat (length pre + length (@nil byte)))
      with true by (symmetry; apply Z.eqb_eq; cbn [length]; lia).
    unfold contents. cbn. repeat split.
  - assert (Hp : length pre = 0%nat) by (rewrite Z.gtb_ltb in Epre; apply Z.ltb_ge in Epre; lia).
    apply length_zero_iff_nil in Hp. subst pre. cbn [length app Nat.add] in *.
    change (Z.of_nat 0) with 0 in *.
    apply Z.ltb_lt in Elt.
    replace (0 =? Z.of_nat (length r)) with false by (symmetry; apply Z.eqb_neq; lia).
    unfold contents. cbn [datalen recvbuf bufsize]. rewrite Nat2Z.id.
    repeat split. apply firstn_app_exact.
  - assert (Hp : length pre = 0%nat) by (rewrite Z.gtb_ltb in Epre; apply Z.ltb_ge in Epre; lia).
    apply length_zero_iff_nil in Hp. subst pre. cbn [length app Nat.add] in *.
    change (Z.of_nat 0) with 0 in *.
    apply Z.ltb_ge in Elt. assert (Hr : length r = 0%nat) by lia.
    apply length_zero_iff_nil in Hr. subst r. cbn. repeat split.
Qed.

Lemma contents_length (b : Buf) :
  0 <= datalen b -> datalen b <= Z.of_nat (length (recvbuf b)) ->
  Z.of_nat (length (contents b)) = datalen b.
Proof. intros H0 H1. unfold contents. rewrite length_firstn. lia. Qed.

Lemma after_copy_spec (b : Buf) (temp : list byte) :
  0 <= datalen b ->
  datalen b + Z.of_nat (length temp) <= Z.of_nat (length (recvbuf b)) ->
  contents (after_copy b temp) = contents b ++ temp /\
  length (recvbuf (after_copy b temp)) = length (recvbuf b).
Proof.
  intros H0 H1. unfold after_copy, contents. cbn [recvbuf datalen]. split.
  - rewrite app_assoc.
    replace (Z.to_nat (datalen b + Z.of_nat (length temp)))
      with (length (firstn (Z.to_nat (datalen b)) (recvbuf b) ++ temp))
      by (rewrite length_app, length_firstn; lia).
    apply firstn_app_exact.
  - rewrite !length_app, length_firstn, length_skipn. lia.
Qed.

Lemma after_scan_spec (b : Buf) :
  0 <= datalen b -> datalen b <= Z.of_nat (length (recvbuf b)) ->
  contents (after_scan b) = leftover_of (contents b) /\
  datalen (after_scan b) = Z.of_nat (length (leftover_of (contents b))) /\
  length (recvbuf (after_scan b)) = length (recvbuf b) /\
  bufsize (after_scan b) = bufsize b.
Proof.
  intros H0 H1.
  pose proof (split_acc_concat (contents b) []) as Hsplit. cbn [app] in Hsplit.
  fold (packets_of (contents b)) (leftover_of (contents b)) in Hsplit.
  pose proof (contents_length b H0 H1) as Hlen.
  set (pre := concat (packets_of (contents b))) in *.
  set (r := leftover_of (contents b)) in *.
  assert (Hmem : recvbuf b = pre ++ r ++ skipn (Z.to_nat (datalen b)) (recvbuf b)).
  { rewrite app_assoc, Hsplit. unfold contents. symmetry. apply firstn_skipn. }
  assert (Hdl : datalen b = Z.of_nat (length pre + length r)).
  { rewrite <- Hlen, <- Hsplit, length_app. reflexivity. }
  unfold after_scan. fold r.
  replace (datalen b - Z.of_nat (length r)) with (Z.of_nat (length pre)) by lia.
  pose proof (shift_leftover_split pre r (skipn (Z.to_nat (datalen b)) (recvbuf b))
                (bufsize b)) as Hs.
  cbv zeta in Hs. rewrite <- Hmem, <- Hdl in Hs.
  destruct b as [mem bs dl]. exact Hs.
Qed.

Lemma resized_length (p : list byte) (n : Z) (f : byte) :
  length (resized p n f) = Z.to_nat n.
Proof.
  unfold resized. rewrite length_app, length_firstn, repeat_length. lia.
Qed.

Lemma resized_prefix (p : list byte) (n : Z) (f : byte) (k : nat) :
  (k <= length p)%nat -> (length p <= Z.to_nat n)%nat ->
  firstn k (resized p n f) = firstn k p.
Proof.
  intros Hk Hn. unfold resized. rewrite (@firstn_all2 _ (Z.to_nat n) p) by lia.
  rewrite firstn_app. replace (k - length p)%nat with 0%nat by lia.
  cbn [firstn]. apply app_nil_r.
Qed.

Lemma grown_spec (b : Buf) (temp : list byte) (f : byte) :
  buf_inv b -> (length temp <= Z.to_nat TEMP_SIZE)%nat ->
  datalen (grown b temp f) = datalen b /\
  contents (grown b temp f) = contents b /\
  datalen b + Z.of_nat (length temp) < bufsize (grown b temp f) /\
  Z.of_nat (length (recvbuf (grown b temp f))) = bufsize (grown b temp f) /\
  (bufsize (grown b temp f) = bufsize b \/
   bufsize (grown b temp f) = 2 * bufsize b /\
   bufsize b <= datalen b + Z.of_nat (length temp)).
Proof.
  intros [H0 Hroom Hblock Hmin Hnl] Htemp. unfold TEMP_SIZE in Htemp.
  unfold grown.
  destruct (datalen b + Z.of_nat (length temp) >=? bufsize b) eqn:E.
  - apply Z.geb_le in E. cbn [datalen bufsize recvbuf]. unfold contents.
    cbn [datalen recvbuf]. rewrite resized_length, resized_prefix by lia.
    repeat split; lia.
  - rewrite Z.geb_leb in E. apply Z.leb_gt in E. repeat split; lia.
Qed.

Lemma next_buf_spec (b : Buf) (temp : list byte) (f : byte) :
  buf_inv b -> (length temp <= Z.to_nat TEMP_SIZE)%nat ->
  buf_inv (next_buf b temp f) /\
  contents (next_buf b temp f) = leftover_of (contents b ++ temp) /\
  datalen (next_buf b temp f)
  = Z.of_nat (length (leftover_of (contents b ++ temp))) /\
  (bufsize (next_buf b temp f) = bufsize b \/
   bufsize (next_buf b temp f) = 2 * bufsize b /\
   bufsize b <= datalen b + Z.of_nat (length temp)).
Proof.
  intros Hinv Htemp.
  destruct (grown_spec b temp f Hinv Htemp) as (Hd & Hc & Hroom & Hblock & Hsize).
  pose proof Hinv as [H0 Hr0 Hb0 Hmin _].
  set (g := grown b temp f) in *.
  destruct (after_copy_spec g temp) as (Hcc & Hcl); [lia | lia |].
  assert (Hcd : datalen (after_copy g temp) = datalen b + Z.of_nat (length temp))
    by (unfold after_copy; cbn [datalen]; lia).
  assert (Hcb : bufsize (after_copy g temp) = bufsize g) by reflexivity.
  destruct (after_scan_spec (after_copy g temp)) as (Hsc & Hsd & Hsl & Hsb);
    [lia | lia |].
  unfold next_buf. fold g. rewrite Hcc, Hc in *.
  pose proof (split_acc_concat (contents b ++ temp) []) as Hsplit.
  fold (packets_of (contents b ++ temp)) (leftover_of (contents b ++ temp)) in Hsplit.
  assert (Hle : (length (leftover_of (contents b ++ temp))
                 <= length (contents b ++ temp))%nat).
  { rewrite <- Hsplit at 2. cbn [app]. rewrite length_app. lia. }
  assert (Hcl2 : Z.of_nat (length (contents b ++ temp))
                 = datalen b + Z.of_nat (length temp)).
  { rewrite length_app, Nat2Z.inj_add, contents_length; lia. }
  repeat split; try lia; try assumption.
  rewrite Hsc. apply leftover_of_no_nl.
Qed.

(** ** One iteration of the receive loop *)

Lemma pop_hd_tl {A} (d : A) (q : list A) : pop d q = (hd d q, tl q).
Proof. destruct q; reflexivity. Qed.

Lemma resize_if_needed_spec (b : Buf) (temp : list byte) (w : World) :
  buf_inv b -> bufsize b < 2 ^ 63 -> valid_chunk temp ->
  resize_if_needed b (Z.of_nat (length temp)) 0 w
  = if datalen b + Z.of_nat (length temp) >=? bufsize b then
      if hd true (alloc_q w)
      then (Next (grown b temp (junk w)), set_alloc_q (tl (alloc_q w)) w)
      else (Return,
            bailed (set_trace (trace w ++ [Syslog LOG_ERR "realloc failed"])
                      (set_alloc_q (tl (alloc_q w)) w)))
    else (Next (grown b temp (junk w)), w).
Proof.
  intros [H0 Hroom Hblock Hmin Hnl] Hbig [Hpos Hmax]. unfold TEMP_SIZE in Hmax.
  pose proof SIZE_MOD_val as HM.
  unfold resize_if_needed, grown. rewrite Z.sub_0_r.
  rewrite (wrap_small (Z.of_nat (length temp))) by lia.
  rewrite (wrap_small (datalen b + Z.of_nat (length temp))) by lia.
  rewrite (wrap_small (bufsize b * 2)) by lia.
  destruct (datalen b + Z.of_nat (length temp) >=? bufsize b) eqn:E; [|reflexivity].
  apply Z.geb_le in E.
  change (Z.to_nat SIZE_BITS) with (S 63). cbn [grow_size].
  replace (datalen b + Z.of_nat (length temp) >=? bufsize b * 2) with false
    by (symmetry; rewrite Z.geb_leb; apply Z.leb_gt; lia).
  unfold bind, realloc. rewrite pop_hd_tl.
  replace (bufsize b * 2) with (2 * bufsize b) by lia.
  destruct (hd true (alloc_q w)); reflexivity.
Qed.

Lemma copy_in_spec (b : Buf) (temp : list byte) (w : World) :
  0 <= datalen b ->
  datalen b + Z.of_nat (length temp) <= Z.of_nat (length (recvbuf b)) ->
  Z.of_nat (length (recvbuf b)) < SIZE_MOD ->
  copy_in b temp 0 (Z.of_nat (length temp)) w = (Next (after_copy b temp), w).
Proof.
  intros H0 Hroom Hsmall. unfold copy_in, after_copy.
  replace (datalen b + Z.of_nat (length temp) <=? Z.of_nat (length (recvbuf b)))
    with true by (symmetry; apply Z.leb_le; lia).
  rewrite wrap_small by lia.
  unfold slice. rewrite Nat2Z.id. cbn [Z.to_nat skipn]. rewrite firstn_all.
  reflexivity.
Qed.

Lemma scan_ref_start (mem : list byte) (len : nat) :
  scan_ref mem len 0 0 = split_acc [] (firstn len mem).
Proof. unfold scan_ref. cbn. now rewrite Nat.sub_0_r. Qed.

(** When nothing fails, an iteration serves the packets completed by the
    chunk and leaves the rest in the buffer. *)
Lemma ingest_calm (b : Buf) (temp : list byte) (w : World) :
  calm w -> buf_inv b -> bufsize b < 2 ^ 63 -> valid_chunk temp ->
  ingest b temp w
  = (Next (next_buf b temp (junk w)), served (packets_of (contents b ++ temp)) w).
Proof.
  intros Hcalm Hinv Hbig Hvalid.
  pose proof Hvalid as [Hpos Hmax].
  destruct (grown_spec b temp (junk w) Hinv Hmax) as (Hd & Hc & Hroom & Hblock & Hsize).
  pose proof Hinv as [H0 Hr0 Hb0 Hmin _].
  pose proof SIZE_MOD_val as HM.
  unfold ingest.
  replace (Z.to_nat (Z.of_nat (length temp))) with (S (length temp - 1)) by lia.
  cbn [ingest_loop].
  replace (0 <? Z.of_nat (length temp)) with true by (symmetry; apply Z.ltb_lt; lia).
  assert (Hres : resize_if_needed b (Z.of_nat (length temp)) 0 w
                 = (Next (grown b temp (junk w)), w)).
  { rewrite resize_if_needed_spec by assumption.
    destruct Hcalm as (_ & Ha & _). rewrite Ha. cbn [hd tl].
    destruct (_ >=? _); [|reflexivity]. destruct w; cbn in *; subst; reflexivity. }
  rewrite (bind_next _ _ _ _ _ Hres). rewrite Z.sub_0_r.
  set (g := grown b temp (junk w)) in *.
  rewrite (bind_next _ _ _ _ _ (copy_in_spec g temp w ltac:(lia) ltac:(lia) ltac:(lia))).
  destruct (after_copy_spec g temp) as (Hcc & Hcl); [lia | lia |].
  assert (Hcd : datalen (after_copy g temp) = datalen b + Z.of_nat (length temp))
    by (unfold after_copy; cbn [datalen]; lia).
  pose proof (scan_loop_calm (after_copy g temp) (Z.to_nat (datalen (after_copy g temp)))
                0 0 w Hcalm) as Hscan.
  change (Z.of_nat 0) with 0 in Hscan.
  rewrite (bind_next _ _ _ _ _ (Hscan ltac:(lia) ltac:(lia) ltac:(lia) ltac:(lia))).
  rewrite scan_ref_start. fold (contents (after_copy g temp)).
  fold (leftover_of (contents (after_copy g temp))).
  fold (packets_of (contents (after_copy g temp))).
  fold (after_scan (after_copy g temp)).
  rewrite Hcc, Hc.
  destruct (length temp - 1)%nat; cbn [ingest_loop];
    rewrite Z.add_0_l, Z.ltb_irrefl; reflexivity.
Qed.

(** Whatever fails, an iteration either leaves the same buffer as it
    does when nothing fails, or ends the handler. *)
Lemma ingest_any (b : Buf) (temp : list byte) (w : World) :
  buf_inv b -> bufsize b < 2 ^ 63 -> valid_chunk temp ->
  ends_well (fun b' _ => b' = next_buf b temp (junk w)) (ingest b temp w).
Proof.
  intros Hinv Hbig Hvalid.
  pose proof Hvalid as [Hpos Hmax].
  destruct (grown_spec b temp (junk w) Hinv Hmax) as (Hd & Hc & Hroom & Hblock & Hsize).
  pose proof Hinv as [H0 Hr0 Hb0 Hmin _].
  pose proof SIZE_MOD_val as HM.
  unfold ingest.
  replace (Z.to_nat (Z.of_nat (length temp))) with (S (length temp - 1)) by lia.
  cbn [ingest_loop].
  replace (0 <? Z.of_nat (length temp)) with true by (symmetry; apply Z.ltb_lt; lia).
  pose proof (resize_if_needed_spec b temp w Hinv Hbig Hvalid) as Hres.
  set (g := grown b temp (junk w)) in *.
  assert (Hrest : forall w1,
    ends_well (fun b' _ => b' = next_buf b temp (junk w))
      (bind (copy_in g temp 0 (Z.of_nat (length temp) - 0))
         (fun b1 => bind (scan_loop (Z.to_nat (datalen b1)) b1 0 0)
            (fun start => ingest_loop (length temp - 1) temp (Z.of_nat (length temp))
                            (shift_leftover b1 start)
                            (0 + (Z.of_nat (length temp) - 0)))) w1)).
  { intros w1. rewrite Z.sub_0_r.
    rewrite (bind_next _ _ _ _ _ (copy_in_spec g temp w1 ltac:(lia) ltac:(lia) ltac:(lia))).
    destruct (after_copy_spec g temp) as (Hcc & Hcl); [lia | lia |].
    assert (Hcd : datalen (after_copy g temp) = datalen b + Z.of_nat (length temp))
      by (unfold after_copy; cbn [datalen]; lia).
    pose proof (scan_loop_any (after_copy g temp) (Z.to_nat (datalen (after_copy g temp)))
                  0 0 w1 ltac:(lia) ltac:(lia) ltac:(lia) ltac:(lia)) as Hscan.
    change (Z.of_nat 0) with 0 in Hscan.
    unfold bind at 1.
    destruct (scan_loop _ (after_copy g temp) 0 0 w1) as [[s| | |] w2];
      cbn [ends_well] in Hscan; try contradiction; [|exact I].
    subst s. rewrite scan_ref_start.
    fold (contents (after_copy g temp)).
    fold (leftover_of (contents (after_copy g temp))).
    fold (after_scan (after_copy g temp)).
    destruct (length temp - 1)%nat; cbn [ingest_loop];
      rewrite Z.add_0_l, Z.ltb_irrefl; reflexivity. }
  unfold bind at 1. rewrite Hres.
  destruct (_ >=? _); [destruct (hd true (alloc_q w))|]; try apply Hrest. exact I.
Qed.

(** ** The receive loop *)

Lemma ends_well_bind {A B} (m : M A) (k : A -> M B)
      (P : A -> World -> Prop) (Q : B -> World -> Prop) (w : World) :
  ends_well P (m w) ->
  (forall a w', P a w' -> ends_well Q (k a w')) ->
  ends_well Q (bind m k w).
Proof.
  unfold bind. destruct (m w) as [[a| | |] w']; cbn; intros H Hk; auto.
Qed.

Lemma exit_requested_next (w : World) :
  exists stop w', exit_requested w = (Next stop, w') /\ junk w' = junk w.
Proof.
  unfold exit_requested. destruct (sig w) as [[|k]|];
    eexists; eexists; split; reflexivity.
Qed.

Lemma exit_requested_calm (w : World) :
  calm w -> exit_requested w = (Next false, w).
Proof. intros (Hs & _). unfold exit_requested. now rewrite Hs. Qed.

Lemma fresh_buf_inv (f : byte) : buf_inv (fresh_buf f).
Proof.
  unfold fresh_buf. constructor; unfold contents; cbn [datalen bufsize recvbuf]; try lia.
  - rewrite repeat_length. lia.
  - cbn [Z.to_nat firstn]. constructor.
Qed.

(** The pure side of a run: the bound [total] on the bytes received so
    far keeps the block size away from the end of [size_t]. *)
Lemma run_buf_spec (script : list (list byte)) (f : byte) :
  forall (b : Buf) (total : Z),
    buf_inv b -> datalen b <= total -> bufsize b <= Z.max 1024 (2 * total) ->
    Forall (fun c => (length c <= Z.to_nat TEMP_SIZE)%nat) script ->
    buf_inv (run_buf b script f) /\
    contents (run_buf b script f) = snd (split_acc (contents b) (concat script)) /\
    datalen (run_buf b script f) <= total + Z.of_nat (length (concat script)) /\
    bufsize (run_buf b script f)
    <= Z.max 1024 (2 * (total + Z.of_nat (length (concat script)))).
Proof.
  induction script as [|c cs IH]; intros b total Hinv Hd Hb Hall.
  - cbn [run_buf fold_left concat split_acc snd length].
    split; [assumption|]. split; [reflexivity|]. split; lia.
  - inversion Hall as [|? ? Hc Hcs]; subst.
    destruct (next_buf_spec b c f Hinv Hc) as (Hinv' & Hcont & Hdl & Hsize).
    pose proof Hinv as [H0 Hr0 Hb0 Hmin Hnl].
    assert (Hle : (length (leftover_of (contents b ++ c))
                   <= length (contents b ++ c))%nat).
    { pose proof (split_acc_concat (contents b ++ c) []) as Hsplit.
      fold (packets_of (contents b ++ c)) (leftover_of (contents b ++ c)) in Hsplit.
      rewrite <- Hsplit at 2. cbn [app]. rewrite length_app. lia. }
    assert (Hcl : Z.of_nat (length (contents b ++ c)) = datalen b + Z.of_nat (length c)).
    { rewrite length_app, Nat2Z.inj_add, contents_length; lia. }
    destruct (IH (next_buf b c f) (total + Z.of_nat (length c)))
      as (Hi & Hco & Hdd & Hbb); try assumption; try lia.
    cbn [run_buf fold_left concat]. fold (run_buf (next_buf b c f) cs f).
    rewrite length_app, Nat2Z.inj_add.
    split; [assumption|]. split; [|split; lia].
    rewrite Hco, Hcont. unfold leftover_of.
    rewrite <- split_acc_from_nil by assumption.
    now rewrite split_acc_app.
Qed.

Lemma recv_loop_calm (script : list (list byte)) :
  forall (b : Buf) (w : World) (total : Z),
    calm w -> buf_inv b ->
    datalen b <= total -> bufsize b <= Z.max 1024 (2 * total) ->
    total + Z.of_nat (length (concat script)) < 2 ^ 62 ->
    Forall valid_chunk script ->
    recv_loop b script w
    = (Next (run_buf b script (junk w)),
       served (fst (split_acc (contents b) (concat script))) w).
Proof.
  induction script as [|c cs IH]; intros b w total Hcalm Hinv Hd Hb Htot Hall;
    cbn [recv_loop]; rewrite (bind_next _ _ _ _ _ (exit_requested_calm w Hcalm)).
  - reflexivity.
  - inversion Hall as [|? ? Hc Hcs]; subst.
    pose proof Hc as [Hpos Hmax].
    replace (Z.of_nat (length c) >? 0) with true by (symmetry; apply Z.gtb_lt; lia).
    cbn [concat] in Htot. rewrite length_app, Nat2Z.inj_add in Htot.
    rewrite (bind_next _ _ _ _ _ (ingest_calm b c w Hcalm Hinv ltac:(lia) Hc)).
    destruct (run_buf_spec [c] (junk w) b total Hinv Hd Hb)
      as (Hinv' & Hcont & Hdl & Hsize); [constructor; [assumption|constructor]|].
    cbn [run_buf fold_left concat] in Hinv', Hcont, Hdl, Hsize.
    rewrite app_nil_r in *.
    rewrite (IH _ _ (total + Z.of_nat (length c)));
      try assumption; try lia; [|now apply calm_served].
    rewrite junk_served, <- served_app. cbn [run_buf fold_left concat].
    do 2 f_equal. rewrite Hcont, split_acc_app. cbn [fst].
    pose proof Hinv as [_ _ _ _ Hnl].
    unfold packets_of. now rewrite <- split_acc_from_nil.
Qed.

Lemma recv_loop_any (script : list (list byte)) :
  forall (b : Buf) (w : World) (total : Z),
    buf_inv b ->
    datalen b <= total -> bufsize b <= Z.max 1024 (2 * total) ->
    total + Z.of_nat (length (concat script)) < 2 ^ 62 ->
    Forall (fun c => (length c <= Z.to_nat TEMP_SIZE)%nat) script ->
    ends_well
      (fun b' _ =>
         exists consumed rest,
           script = consumed ++ rest /\
           buf_inv b' /\
           contents b' = snd (split_acc (contents b) (concat consumed)))
      (recv_loop b script w).
Proof.
  induction script as [|c cs IH]; intros b w total Hinv Hd Hb Htot Hall;
    cbn [recv_loop];
    destruct (exit_requested_next w) as (stop & w0 & E & Hj);
    rewrite (bind_next _ _ _ _ _ E).
  - destruct stop; exists [], []; (split; [reflexivity|]; split; [assumption|reflexivity]).
  - destruct stop;
      [exists [], (c :: cs); (split; [reflexivity|]; split; [assumption|reflexivity])|].
    inversion Hall as [|? ? Hc Hcs]; subst.
    destruct (Z.of_nat (length c) >? 0) eqn:Epos;
      [|exists [], (c :: cs); (split; [reflexivity|]; split; [assumption|reflexivity])].
    apply Z.gtb_lt in Epos.
    cbn [concat] in Htot. rewrite length_app, Nat2Z.inj_add in Htot.
    assert (Hv : valid_chunk c) by (split; lia).
    apply (ends_well_bind _ _ (fun b' _ => b' = next_buf b c (junk w0))).
    + apply ingest_any; try assumption. lia.
    + intros b' w1 ->.
      destruct (run_buf_spec [c] (junk w0) b total Hinv Hd Hb)
        as (Hinv' & Hcont & Hdl & Hsize); [constructor; [assumption|constructor]|].
      cbn [run_buf fold_left concat] in Hinv', Hcont, Hdl, Hsize.
      rewrite app_nil_r in *.
      specialize (IH (next_buf b c (junk w0)) w1 (total + Z.of_nat (length c))
                     Hinv' Hdl Hsize ltac:(lia) Hcs).
      destruct (recv_loop _ cs w1) as [[b2| | |] w2]; cbn [ends_well] in *; auto.
      destruct IH as (consumed & rest & -> & Hi & Hco).
      exists (c :: consumed), rest. split; [reflexivity|]. split; [assumption|].
      rewrite Hco, Hcont. cbn [concat]. now rewrite split_acc_app.
Qed.

(** ** A whole connection when nothing fails *)

Lemma handle_client_calm (c : Conn) (w : World) :
  calm w ->
  Forall valid_chunk (incoming c) ->
  Z.of_nat (length (concat (incoming c))) < 2 ^ 62 ->
  exists w',
    handle_client c w = (Next tt, w') /\
    file w' = file w ++ concat (packets_of (concat (incoming c))) /\
    trace w'
    = trace w
      ++ [Syslog LOG_INFO ("Accepted connection from " ++ client_ip c)]
      ++ serve_events (file w) (packets_of (concat (incoming c)))
      ++ [Syslog LOG_INFO ("Closed connection from " ++ client_ip c)] /\
    held w' = release_one RSock (held w) /\
    calm w'.
Proof.
  intros Hcalm Hall Hlen.
  destruct w as [f t h j s a fo fw sq].
  unfold calm in Hcalm; cbn in Hcalm. destruct Hcalm as (-> & -> & -> & -> & ->).
  unfold handle_client.
  erewrite bind_next by reflexivity.
  erewrite bind_next by reflexivity. cbn [negb].
  erewrite bind_next by reflexivity. cbv iota beta.
  unfold set_held, set_alloc_q, set_fopen_q, set_trace.
  cbn [file trace held junk sig alloc_q fopen_q fwrite_q send_q].
  match goal with
  | |- context [bind (recv_loop ?b ?s) ?k ?w1] =>
      assert (Hc1 : calm w1) by (repeat split);
      pose proof (recv_loop_calm s b w1 0 Hc1 (fresh_buf_inv j)
                    ltac:(cbn; lia) ltac:(cbn; lia) ltac:(lia) Hall) as Hloop;
      rewrite (bind_next _ _ _ _ _ Hloop);
      pose proof (file_served (fst (split_acc (contents b) (concat s))) w1) as Hf;
      pose proof (trace_served (fst (split_acc (contents b) (concat s))) w1) as Ht;
      pose proof (held_served (fst (split_acc (contents b) (concat s))) w1) as Hh;
      pose proof (calm_served (fst (split_acc (contents b) (concat s))) w1 Hc1) as Hc2;
      clear Hloop; set (W := w1) in *
  end.
  unfold contents in *. cbn [datalen recvbuf Z.to_nat firstn] in *.
  fold (packets_of (concat (incoming c))) in *.
  set (ps := packets_of (concat (incoming c))) in *.
  eexists. split; [reflexivity|].
  unfold bind, release, fclose, release, syslog, emit, set_held, set_trace.
  cbn [file trace held junk sig alloc_q fopen_q fwrite_q send_q].
  rewrite Hf, Ht, Hh. subst W. cbn [file trace held].
  repeat split; try apply Hc2.
  now rewrite <- !app_assoc.
Qed.

Lemma appended_serve_events (f : list byte) (ps : list (list byte)) :
  appended (serve_events f ps) = ps.
Proof.
  revert f; induction ps as [|p ps IH]; intros f; cbn [serve_events]; [reflexivity|].
  unfold packet_events. cbn [app appended].
  now rewrite appended_app, appended_map_Sent, IH.
Qed.

Lemma is_nl_newline (c : byte) : is_nl c = true -> c = newline.
Proof. apply Byte.byte_dec_bl. Qed.

Lemma split_acc_packets (s acc : list byte) :
  no_nl acc -> Forall is_packet (fst (split_acc acc s)).
Proof.
  revert acc; induction s as [|c s IH]; intros acc Hacc; cbn [split_acc].
  - constructor.
  - destruct (is_nl c) eqn:E.
    + specialize (IH [] (Forall_nil _)).
      destruct (split_acc [] s) as [ps r]. cbn [fst] in *.
      constructor; [|assumption].
      exists acc. apply is_nl_newline in E. now subst c.
    + apply IH. apply Forall_app. split; [assumption|]. now constructor.
Qed.

(** ** One packet, whatever the world does *)

Lemma skipn_tl {A} (n : nat) (q : list A) : skipn n (tl q) = skipn (S n) q.
Proof. destruct q; [now rewrite skipn_nil | reflexivity]. Qed.

(** As long as every [send] takes its whole block, the loop sends all
    the blocks. *)
Lemma send_blocks_all (bs : list (list byte)) (w : World) :
  Forall (eq SentAll) (firstn (length bs) (send_q w)) ->
  send_blocks bs w
  = (Next tt, set_send_q (skipn (length bs) (send_q w))
                (set_trace (trace w ++ map Sent bs) w)).
Proof.
  revert w; induction bs as [|b bs IH]; intros w Hq.
  - cbn. rewrite app_nil_r. destruct w; reflexivity.
  - cbn [send_blocks]. unfold bind, send_lt_0. rewrite pop_hd_tl.
    assert (Hhd : hd SentAll (send_q w) = SentAll).
    { destruct (send_q w) as [|r q]; [reflexivity|].
      cbn in Hq. inversion Hq; subst. reflexivity. }
    rewrite Hhd. rewrite IH.
    + cbn [length]. rewrite <- skipn_tl.
      destruct w; unfold set_send_q, set_trace; cbn. now rewrite <- app_assoc.
    + destruct w as [f t h j s a fo fw [|r q]]; cbn in *;
        [rewrite firstn_nil; constructor | now inversion Hq].
Qed.

(** The first [send] that fails is logged and ends the reply; the
    blocks behind it are not read. *)
Lemma send_blocks_fail (bs1 bs2 : list (list byte)) (b : list byte)
      (q : list SendResult) (w : World) :
  send_q w = repeat SentAll (length bs1) ++ SendErr :: q ->
  send_blocks (bs1 ++ b :: bs2) w
  = (Next tt,
     set_send_q q
       (set_trace (trace w ++ map Sent bs1
                     ++ [SendFailed b;
                         Syslog LOG_ERR "Failed to send data to client"]) w)).
Proof.
  revert w; induction bs1 as [|b1 bs1 IH]; intros w Hq;
    cbn [app send_blocks]; unfold bind, send_lt_0; rewrite Hq; cbn [length repeat app pop].
  - destruct w; unfold syslog, emit, set_send_q, set_trace; cbn.
    now rewrite <- app_assoc.
  - rewrite IH by reflexivity.
    destruct w; unfold set_send_q, set_trace; cbn. now rewrite <- app_assoc.
Qed.


(** [process_packet] spelled out: the append is made and its result
    dropped; the reply follows unless the file cannot be reopened. *)
Lemma process_packet_spec (p : list byte) (w : World) :
  process_packet p w
  = let okw := hd true (fwrite_q w) in
    let f' := if okw then file w ++ p else file w in
    let w1 := mkWorld f' (trace w ++ [Append p okw]) (held w) (junk w) (sig w)
                      (alloc_q w) (tl (fopen_q w)) (tl (fwrite_q w)) (send_q w) in
    if hd true (fopen_q w) then
      bind (send_blocks (reply_blocks f')) (fun _ => fclose RReader)
           (set_held (RReader :: held w) w1)
    else
      (Return,
       bailed (set_trace
                 (trace w1 ++ [Syslog LOG_ERR
                                 ("Failed to open " ++ DATAFILE ++ " for reading")])
                 w1)).
Proof.
  unfold process_packet.
  destruct w as [f t h j s a fo fw sq].
  destruct fw as [|[|] fw]; destruct fo as [|[|] fo];
    (erewrite bind_next by reflexivity);
    (erewrite bind_next by reflexivity);
    cbn [negb hd tl file trace held junk sig alloc_q fopen_q fwrite_q send_q];
    try reflexivity;
    unfold bind at 1; rewrite reply_loop_send_blocks by lia; reflexivity.
Qed.

(** ** The handler as a loop over packets

    Whatever the file and the socket do, the receive loop does to them
    what [process_all] does on the packets of the stream; the cutting
    into chunks only decides when. *)

Lemma bind_assoc {A B C} (m : M A) (f : A -> M B) (g : B -> M C) (w : World) :
  bind (bind m f) g w = bind m (fun a => bind (f a) g) w.
Proof. unfold bind. destruct (m w) as [[a| | |] w']; reflexivity. Qed.

Lemma bind_congr {A B} (m : M A) (k k' : A -> M B) (w : World) :
  (forall a w', m w = (Next a, w') -> k a w' = k' a w') ->
  bind m k w = bind m k' w.
Proof.
  intros H. unfold bind. destruct (m w) as [[a| | |] w'] eqn:E; auto.
Qed.

Lemma bind_ret_l {A B} (a : A) (k : A -> M B) (w : World) :
  bind (ret a) k w = k a w.
Proof. reflexivity. Qed.

Lemma bind_on {A B} (m m' : M A) (k : A -> M B) (w : World) :
  m w = m' w -> bind m k w = bind m' k w.
Proof. unfold bind. now intros ->. Qed.

Lemma process_all_app (ps1 ps2 : list (list byte)) (w : World) :
  process_all (ps1 ++ ps2) w = bind (process_all ps1) (fun _ => process_all ps2) w.
Proof.
  revert w; induction ps1 as [|p ps1 IH]; intros w; cbn [app process_all].
  - reflexivity.
  - rewrite bind_assoc. apply bind_congr. intros _ w' _. apply IH.
Qed.

(** Serving a packet leaves the signal, the allocator and the heap's
    junk alone. *)
Lemma process_packet_frame (p : list byte) (w : World) :
  sig (snd (process_packet p w)) = sig w /\
  alloc_q (snd (process_packet p w)) = alloc_q w /\
  junk (snd (process_packet p w)) = junk w.
Proof.
  rewrite process_packet_spec. cbv zeta.
  destruct (hd true (fopen_q w)); [|repeat split].
  unfold bind.
  match goal with |- context [send_blocks ?bs ?w1] =>
    destruct (send_blocks_next bs w1) as (w2 & -> & _ & _ & Hj & Hs & Ha & _)
  end.
  cbn in *. repeat split; assumption.
Qed.

Lemma process_all_frame (ps : list (list byte)) (w : World) :
  sig (snd (process_all ps w)) = sig w /\
  alloc_q (snd (process_all ps w)) = alloc_q w /\
  junk (snd (process_all ps w)) = junk w.
Proof.
  revert w; induction ps as [|p ps IH]; intros w; cbn [process_all].
  - repeat split.
  - pose proof (process_packet_frame p w) as (Hs & Ha & Hj).
    unfold bind. destruct (process_packet p w) as [[[]| | |] w1]; cbn [snd] in *;
      try (repeat split; assumption).
    destruct (IH w1) as (Hs' & Ha' & Hj'). repeat split; congruence.
Qed.

Lemma process_all_calm (ps : list (list byte)) (w : World) :
  calm w -> process_all ps w = (Next tt, served ps w).
Proof.
  revert w; induction ps as [|p ps IH]; intros w Hcalm; cbn [process_all].
  - reflexivity.
  - rewrite (bind_next _ _ _ _ _ (process_packet_calm p w Hcalm)).
    apply IH, calm_serve1, Hcalm.
Qed.

Lemma scan_loop_process (b : Buf) (fuel i start : nat) (w : World) :
  0 <= datalen b ->
  (Z.to_nat (datalen b) <= length (recvbuf b))%nat ->
  (start <= i)%nat ->
  (i + fuel = Z.to_nat (datalen b))%nat ->
  scan_loop fuel b (Z.of_nat i) (Z.of_nat start) w
  = bind (process_all (fst (scan_ref (recvbuf b) (Z.to_nat (datalen b)) i start)))
         (fun _ => ret (datalen b - Z.of_nat (length
                    (snd (scan_ref (recvbuf b) (Z.to_nat (datalen b)) i start)))))
         w.
Proof.
  intros H0 Hfit. revert i start w.
  induction fuel as [|k IH]; intros i start w Hsi Hfuel.
  - cbn [scan_loop].
    replace (Z.of_nat i <? datalen b) with false by (symmetry; apply Z.ltb_ge; lia).
    replace i with (Z.to_nat (datalen b)) by lia.
    rewrite scan_ref_leftover_length, scan_ref_done by lia.
    cbn. unfold ret. do 2 f_equal. lia.
  - cbn [scan_loop].
    replace (Z.of_nat i <? datalen b) with true by (symmetry; apply Z.ltb_lt; lia).
    rewrite Nat2Z.id.
    rewrite (scan_ref_step _ _ _ _ "000"%byte) by lia.
    replace (Z.of_nat i + 1) with (Z.of_nat (S i)) by lia.
    destruct (is_nl (nth i (recvbuf b) "000"%byte)).
    + cbn [fst snd process_all]. rewrite bind_assoc.
      unfold slice. rewrite Nat2Z.id.
      replace (Z.to_nat (Z.of_nat i - Z.of_nat start + 1)) with (S (i - start)) by lia.
      apply bind_congr. intros _ w' _. apply IH; lia.
    + apply IH; lia.
Qed.

Lemma ingest_process (b : Buf) (temp : list byte) (w : World) :
  steady w -> buf_inv b -> bufsize b < 2 ^ 63 -> valid_chunk temp ->
  ingest b temp w
  = bind (process_all (packets_of (contents b ++ temp)))
         (fun _ => ret (next_buf b temp (junk w))) w.
Proof.
  intros [Hsig Halloc] Hinv Hbig Hvalid.
  pose proof Hvalid as [Hpos Hmax].
  destruct (grown_spec b temp (junk w) Hinv Hmax) as (Hd & Hc & Hroom & Hblock & Hsize).
  pose proof Hinv as [H0 Hr0 Hb0 Hmin _].
  pose proof SIZE_MOD_val as HM.
  unfold ingest.
  replace (Z.to_nat (Z.of_nat (length temp))) with (S (length temp - 1)) by lia.
  cbn [ingest_loop].
  replace (0 <? Z.of_nat (length temp)) with true by (symmetry; apply Z.ltb_lt; lia).
  assert (Hres : resize_if_needed b (Z.of_nat (length temp)) 0 w
                 = (Next (grown b temp (junk w)), w)).
  { rewrite resize_if_needed_spec by assumption.
    rewrite Halloc. cbn [hd tl].
    destruct (_ >=? _); [|reflexivity]. destruct w; cbn in *; subst; reflexivity. }
  rewrite (bind_next _ _ _ _ _ Hres). rewrite Z.sub_0_r.
  set (g := grown b temp (junk w)) in *.
  rewrite (bind_next _ _ _ _ _ (copy_in_spec g temp w ltac:(lia) ltac:(lia) ltac:(lia))).
  destruct (after_copy_spec g temp) as (Hcc & Hcl); [lia | lia |].
  assert (Hcd : datalen (after_copy g temp) = datalen b + Z.of_nat (length temp))
    by (unfold after_copy; cbn [datalen]; lia).
  pose proof (scan_loop_process (after_copy g temp)
                (Z.to_nat (datalen (after_copy g temp))) 0 0 w
                ltac:(lia) ltac:(lia) ltac:(lia) ltac:(lia)) as Hscan.
  change (Z.of_nat 0) with 0 in Hscan. rewrite (bind_on _ _ _ _ Hscan), bind_assoc.
  rewrite scan_ref_start. fold (contents (after_copy g temp)).
  fold (leftover_of (contents (after_copy g temp))).
  fold (packets_of (contents (after_copy g temp))).
  fold (after_scan (after_copy g temp)).
  replace (packets_of (contents (after_copy g temp)))
    with (packets_of (contents b ++ temp)) by (now rewrite Hcc, Hc).
  apply bind_congr. intros _ w' _.
  unfold next_buf. fold g. unfold bind, ret.
  destruct (length temp - 1)%nat; cbn [ingest_loop];
    rewrite Z.add_0_l, Z.ltb_irrefl; reflexivity.
Qed.

Lemma recv_loop_process (script : list (list byte)) :
  forall (b : Buf) (w : World) (total : Z),
    steady w -> buf_inv b ->
    datalen b <= total -> bufsize b <= Z.max 1024 (2 * total) ->
    total + Z.of_nat (length (concat script)) < 2 ^ 62 ->
    Forall valid_chunk script ->
    recv_loop b script w
    = bind (process_all (fst (split_acc (contents b) (concat script))))
           (fun _ => ret (run_buf b script (junk w))) w.
Proof.
  induction script as [|c cs IH]; intros b w total Hst Hinv Hd Hb Htot Hall;
    cbn [recv_loop];
    (assert (E : exit_requested w = (Next false, w))
      by (unfold exit_requested; destruct Hst as [-> _]; reflexivity));
    rewrite (bind_next _ _ _ _ _ E).
  - reflexivity.
  - inversion Hall as [|? ? Hc Hcs]; subst.
    pose proof Hc as [Hpos Hmax].
    replace (Z.of_nat (length c) >? 0) with true by (symmetry; apply Z.gtb_lt; lia).
    cbn [concat] in Htot. rewrite length_app, Nat2Z.inj_add in Htot.
    rewrite (bind_on _ _ _ _ (ingest_process b c w Hst Hinv ltac:(lia) Hc)), bind_assoc.
    destruct (run_buf_spec [c] (junk w) b total Hinv Hd Hb)
      as (Hinv' & Hcont & Hdl & Hsize); [constructor; [assumption|constructor]|].
    cbn [run_buf fold_left concat] in Hinv', Hcont, Hdl, Hsize.
    rewrite app_nil_r in *.
    pose proof Hinv as [_ _ _ _ Hnl].
    cbn [concat]. rewrite split_acc_app. cbn [fst].
    rewrite (bind_on _ _ _ _ (process_all_app _ _ _)), bind_assoc.
    unfold packets_of. rewrite <- split_acc_from_nil by assumption.
    apply bind_congr. intros [] w' Hw'. rewrite bind_ret_l.
    pose proof (process_all_frame (fst (split_acc (contents b) c)) w) as (Hs' & Ha' & Hj').
    rewrite Hw' in Hs', Ha', Hj'. cbn [snd] in Hs', Ha', Hj'.
    rewrite (IH _ w' (total + Z.of_nat (length c))); try assumption; try lia.
    + rewrite Hj', Hcont. reflexivity.
    + destruct Hst as [Hs Ha]. split; congruence.
Qed.

(** The handler does what [handle_packets] does on the packets of the
    stream. *)
Lemma handle_client_process (c : Conn) (w : World) :
  steady w ->
  Forall valid_chunk (incoming c) ->
  Z.of_nat (length (concat (incoming c))) < 2 ^ 62 ->
  handle_client c w
  = handle_packets (client_ip c) (packets_of (concat (incoming c))) w.
Proof.
  intros [Hsig Halloc] Hall Hlen.
  unfold handle_client, handle_packets.
  apply bind_congr. intros [] w1 E1.
  apply bind_congr. intros fp w2 E2.
  destruct fp; cbn [negb]; [|reflexivity].
  assert (Hst2 : steady w2 /\ junk w2 = junk w).
  { unfold syslog, emit in E1. inversion E1; subst w1. clear E1.
    unfold fopen in E2. rewrite pop_hd_tl in E2.
    destruct (hd true (fopen_q _)); inversion E2; subst w2.
    destruct w; cbn in *. subst. repeat split. }
  destruct Hst2 as ([Hs2 Ha2] & Hj2).
  unfold bind at 1, malloc. rewrite pop_hd_tl, Ha2. cbn [hd tl].
  replace (set_alloc_q [] w2) with w2 by (destruct w2; cbn in *; subst; reflexivity).
  symmetry. erewrite (bind_next (acquire RBuf)) by reflexivity. symmetry.
  match goal with
  | |- bind (recv_loop ?b ?s) ?k ?w3 = _ =>
      assert (Hst3 : steady w3) by (destruct w2; cbn in *; subst; split; reflexivity);
      pose proof (recv_loop_process s b w3 0 Hst3 (fresh_buf_inv (junk w2))
                    ltac:(cbn; lia) ltac:(cbn; lia) ltac:(lia) Hall) as Hloop;
      rewrite (bind_on _ _ _ _ Hloop)
  end.
  rewrite bind_assoc.
  change (contents _) with (@nil byte).
  fold (packets_of (concat (incoming c))).
  apply bind_congr. intros [] w4 _. reflexivity.
Qed.

(** Replies put nothing into the file's log of appends. *)
Lemma send_blocks_appended (bs : list (list byte)) (w : World) :
  appended (trace (snd (send_blocks bs w))) = appended (trace w).
Proof.
  revert w; induction bs as [|b bs IH]; intros w; cbn [send_blocks].
  - reflexivity.
  - unfold bind, send_lt_0. rewrite pop_hd_tl.
    destruct (hd SentAll (send_q w)); try rewrite IH; cbn;
      rewrite !appended_app; cbn; now rewrite ?app_nil_r.
Qed.

Lemma process_packet_appended (p : list byte) (w w' : World) :
  process_packet p w = (Next tt, w') ->
  appended (trace w') = appended (trace w) ++ [p].
Proof.
  rewrite process_packet_spec. cbv zeta.
  destruct (hd true (fopen_q w)); [|discriminate].
  unfold bind.
  match goal with |- context [send_blocks ?bs ?w1] =>
    pose proof (send_blocks_appended bs w1) as Happ;
    destruct (send_blocks_next bs w1) as (w2 & E & _)
  end.
  rewrite E in *. cbn [snd] in Happ. intros H. inversion H; subst w'. clear H.
  cbn [trace fclose release set_held]. rewrite Happ. cbn [trace set_held].
  rewrite appended_app. reflexivity.
Qed.

Lemma process_all_appended (ps : list (list byte)) (w w' : World) :
  process_all ps w = (Next tt, w') ->
  appended (trace w') = appended (trace w) ++ ps.
Proof.
  revert w; induction ps as [|p ps IH]; intros w; cbn [process_all].
  - intros H. inversion H. now rewrite app_nil_r.
  - unfold bind. destruct (process_packet p w) as [[[]| | |] w1] eqn:E;
      try discriminate.
    intros H. rewrite (IH _ H), (process_packet_appended _ _ _ E).
    now rewrite <- app_assoc.
Qed.

(** * The claims *)

(** C1 (framing correctness).  However the bytes of a connection are
    cut into [recv] chunks, the handler does the same: two scripts with
    the same concatenation give the same outcome and leave the same
    world (the same appends in the same order, the same replies, the
    same file), whatever the file and the socket answer.  When nothing
    fails, the packets appended are the packets of the stream. *)
Theorem chunking_independence
        (ip : string) (script1 script2 : list (list byte)) (w : World) :
  steady w ->
  Forall valid_chunk script1 ->
  Forall valid_chunk script2 ->
  concat script1 = concat script2 ->
  Z.of_nat (length (concat script1)) < 2 ^ 62 ->
  handle_client (mkConn ip script1) w = handle_client (mkConn ip script2) w /\
  (calm w ->
   exists w',
     handle_client (mkConn ip script1) w = (Next tt, w') /\
     appended (trace w') = appended (trace w) ++ packets_of (concat script1)).
Proof.
  intros Hst H1 H2 Hsame Hlen. split.
  - rewrite (handle_client_process (mkConn ip script1) w Hst H1 Hlen).
    rewrite (handle_client_process (mkConn ip script2) w Hst H2)
      by (cbn [incoming]; now rewrite <- Hsame).
    cbn [incoming client_ip]. now rewrite Hsame.
  - intros Hcalm.
    destruct (handle_client_calm (mkConn ip script1) w Hcalm H1 Hlen)
      as (w1 & E1 & _ & Ht1 & _).
    cbn [incoming client_ip] in *. exists w1. split; [exact E1|].
    rewrite Ht1, !appended_app, appended_serve_events. cbn [appended].
    now rewrite app_nil_r.
Qed.

(** C2 (no loss, no duplication).  The stream received on a connection
    splits into packets, each closed by its only delimiter, and a tail
    without delimiter.  As long as the connection is served, whatever
    the file and the socket answer, the packets handed to the store are
    exactly those packets, in order, and the bytes held in the receive
    buffer are exactly that tail: nothing is lost, nothing is appended
    twice.  When nothing fails the connection is served to the end of
    the script and the file has grown by those packets. *)
Theorem no_loss_no_duplication (script : list (list byte)) (w : World) :
  steady w ->
  Forall valid_chunk script ->
  Z.of_nat (length (concat script)) < 2 ^ 62 ->
  exists pkts tail,
    concat pkts ++ tail = concat script /\
    Forall is_packet pkts /\
    no_nl tail /\
    ends_well
      (fun b' w' =>
         contents b' = tail /\
         appended (trace w') = appended (trace w) ++ pkts)
      (recv_loop (fresh_buf (junk w)) script w) /\
    (calm w ->
     exists b' w',
       recv_loop (fresh_buf (junk w)) script w = (Next b', w') /\
       file w' = file w ++ concat pkts).
Proof.
  intros Hst Hall Hlen.
  pose proof (fresh_buf_inv (junk w)) as Hinv.
  destruct (run_buf_spec script (junk w) (fresh_buf (junk w)) 0 Hinv
              ltac:(cbn; lia) ltac:(cbn; lia)) as (Hinv' & Hcont & _).
  { eapply Forall_impl; [|exact Hall]. intros c [_ Hc]. exact Hc. }
  assert (Hempty : contents (fresh_buf (junk w)) = []) by reflexivity.
  rewrite Hempty in Hcont.
  exists (packets_of (concat script)), (leftover_of (concat script)).
  split; [apply (split_acc_concat (concat script) [])|].
  split; [apply split_acc_packets; constructor|].
  split; [apply leftover_of_no_nl|].
  split.
  - rewrite (recv_loop_process script (fresh_buf (junk w)) w 0 Hst Hinv
               ltac:(cbn; lia) ltac:(cbn; lia) ltac:(lia) Hall).
    rewrite Hempty. fold (packets_of (concat script)).
    unfold bind.
    destruct (process_all (packets_of (concat script)) w) as [[[]| | |] w'] eqn:E;
      cbn [ends_well ret].
    + split; [exact Hcont|]. now apply process_all_appended.
    + exact I.
    + exfalso.
      pose proof (recv_loop_any script (fresh_buf (junk w)) w 0 Hinv
                    ltac:(cbn; lia) ltac:(cbn; lia) ltac:(lia)) as Hany.
      rewrite (recv_loop_process script (fresh_buf (junk w)) w 0 Hst Hinv
                 ltac:(cbn; lia) ltac:(cbn; lia) ltac:(lia) Hall) in Hany.
      unfold bind in Hany. rewrite Hempty in Hany.
      fold (packets_of (concat script)) in Hany. rewrite E in Hany. apply Hany.
      eapply Forall_impl; [|exact Hall]. intros c [_ Hc]. exact Hc.
    + exfalso.
      pose proof (recv_loop_any script (fresh_buf (junk w)) w 0 Hinv
                    ltac:(cbn; lia) ltac:(cbn; lia) ltac:(lia)) as Hany.
      rewrite (recv_loop_process script (fresh_buf (junk w)) w 0 Hst Hinv
                 ltac:(cbn; lia) ltac:(cbn; lia) ltac:(lia) Hall) in Hany.
      unfold bind in Hany. rewrite Hempty in Hany.
      fold (packets_of (concat script)) in Hany. rewrite E in Hany. apply Hany.
      eapply Forall_impl; [|exact Hall]. intros c [_ Hc]. exact Hc.
  - intros Hcalm.
    pose proof (recv_loop_calm script (fresh_buf (junk w)) w 0 Hcalm Hinv
                  ltac:(cbn; lia) ltac:(cbn; lia) ltac:(lia) Hall) as Hloop.
    rewrite Hempty in Hloop. fold (packets_of (concat script)) in Hloop.
    eexists. eexists. split; [exact Hloop|]. apply file_served.
Qed.

Lemma chunking_independence_witness :
  handle_client (mkConn "10.0.0.7" [["a"; newline; "b"; newline]]%byte)
                (fresh_world x00)
  = handle_client (mkConn "10.0.0.7" [["a"]; [newline; "b"]; [newline]]%byte)
                  (fresh_world x00) /\
  exists w',
    handle_client (mkConn "10.0.0.7" [["a"; newline; "b"; newline]]%byte)
                  (fresh_world x00) = (Next tt, w') /\
    appended (trace w') = [["a"; newline]; ["b"; newline]]%byte.
Proof.
  destruct (chunking_independence "10.0.0.7"
              [["a"; newline; "b"; newline]]%byte
              [["a"]; [newline; "b"]; [newline]]%byte
              (fresh_world x00)) as [Hsame Hpackets].
  - split; reflexivity.
  - repeat constructor.
  - repeat constructor.
  - reflexivity.
  - reflexivity.
  - split; [exact Hsame|]. apply Hpackets. repeat split.
Defined.

Lemma no_loss_no_duplication_witness :
  exists pkts tail,
    concat pkts ++ tail = concat [["a"; newline]; ["b"; "c"]]%byte /\
    Forall is_packet pkts /\
    no_nl tail /\
    ends_well
      (fun b' w' =>
         contents b' = tail /\
         appended (trace w') = appended (trace (fresh_world x00)) ++ pkts)
      (recv_loop (fresh_buf x00) [["a"; newline]; ["b"; "c"]]%byte
                 (fresh_world x00)) /\
    exists b' w',
      recv_loop (fresh_buf x00) [["a"; newline]; ["b"; "c"]]%byte
                (fresh_world x00) = (Next b', w') /\
      file w' = file (fresh_world x00) ++ concat pkts.
Proof.
  destruct (no_loss_no_duplication [["a"; newline]; ["b"; "c"]]%byte
              (fresh_world x00))
    as (pkts & tail & Hcat & Hpk & Hnl & Hrun & Hcalm).
  - split; reflexivity.
  - repeat constructor.
  - reflexivity.
  - exists pkts, tail.
    split; [exact Hcat|]. split; [exact Hpk|]. split; [exact Hnl|].
    split; [exact Hrun|]. apply Hcalm. repeat split.
Defined.

(** C3 (several packets in one read).  A client that writes ["a\nb\n"]
    in one piece to a freshly started server causes exactly two appends,
    ["a\n"] then ["b\n"], and two replies, ["a\n"] after the first and
    ["a\nb\n"] after the second; the connection then closes in order. *)
Theorem two_packets_in_one_read (ip : string) (fill : byte) :
  let w' := snd (handle_client (mkConn ip [["a"; newline; "b"; newline]]%byte)
                               (fresh_world fill)) in
  fst (handle_client (mkConn ip [["a"; newline; "b"; newline]]%byte)
                     (fresh_world fill)) = Next tt /\
  trace w'
  = [Syslog LOG_INFO ("Accepted connection from " ++ ip);
     Append ["a"; newline]%byte true;
     Sent ["a"; newline]%byte;
     Append ["b"; newline]%byte true;
     Sent ["a"; newline; "b"; newline]%byte;
     Syslog LOG_INFO ("Closed connection from " ++ ip)] /\
  file w' = ["a"; newline; "b"; newline]%byte /\
  held w' = [].
Proof. vm_compute. repeat split. Qed.

(** C4 (reply completeness) does not hold of the handler.  [send] may
    take fewer bytes than it was given and says so in its result; the
    handler tests that result for [< 0] only and reads on in the file,
    so the bytes [send] did not take are never sent, and nothing is
    logged.  With ["a\n"] received on an empty data file and the one
    [send] taking a single byte, the packet is appended, the reply is
    ["a"], and the connection is closed as after a good reply. *)
Theorem short_send_truncates_reply :
  handle_client (mkConn "10.0.0.7" [["a"; newline]]%byte)
                (set_send_q [SentPart 1] (fresh_world x00))
  = (Next tt,
     mkWorld ["a"; newline]%byte
             [Syslog LOG_INFO "Accepted connection from 10.0.0.7";
              Append ["a"; newline]%byte true;
              Sent ["a"]%byte;
              Syslog LOG_INFO "Closed connection from 10.0.0.7"]
             [] x00 None [] [] [] []) /\
  wire [Syslog LOG_INFO "Accepted connection from 10.0.0.7";
        Append ["a"; newline]%byte true;
        Sent ["a"]%byte;
        Syslog LOG_INFO "Closed connection from 10.0.0.7"]
  <> ["a"; newline]%byte.
Proof.
  split.
  - vm_compute. reflexivity.
  - cbn [wire app]. discriminate.
Qed.

(** The path on which the reply is complete: when the file reopens and
    every [send] takes its whole block, the bytes sent right after the
    append are, block after block, the whole content of the data file at
    that moment: everything stored before, followed by the packet. *)
Theorem reply_is_whole_store (p : list byte) (w : World) :
  hd true (fwrite_q w) = true ->
  hd true (fopen_q w) = true ->
  Forall (eq SentAll) (firstn (length (reply_blocks (file w ++ p))) (send_q w)) ->
  exists w' reply,
    process_packet p w = (Next tt, w') /\
    file w' = file w ++ p /\
    trace w' = trace w ++ Append p true :: map Sent reply /\
    concat reply = file w' /\
    held w' = held w.
Proof.
  intros Hw Ho Hs. rewrite process_packet_spec, Hw, Ho. cbv zeta.
  unfold bind. rewrite send_blocks_all by exact Hs.
  eexists. exists (reply_blocks (file w ++ p)).
  split; [reflexivity|]. cbn. repeat split.
  - now rewrite <- app_assoc.
  - apply reply_blocks_concat.
Qed.

Lemma reply_is_whole_store_witness :
  exists w' reply,
    process_packet ["b"; newline]%byte
      (set_file ["a"; newline]%byte (fresh_world x00)) = (Next tt, w') /\
    file w' = file (set_file ["a"; newline]%byte (fresh_world x00))
              ++ ["b"; newline]%byte /\
    trace w' = trace (set_file ["a"; newline]%byte (fresh_world x00))
               ++ Append ["b"; newline]%byte true :: map Sent reply /\
    concat reply = file w' /\
    held w' = held (set_file ["a"; newline]%byte (fresh_world x00)).
Proof.
  apply (reply_is_whole_store ["b"; newline]%byte
           (set_file ["a"; newline]%byte (fresh_world x00))).
  - reflexivity.
  - reflexivity.
  - cbn. constructor.
Defined.




(** C6, as stated, fails: with ["x\n"] already stored, ["a\nb\n"]
    received and the append of ["a\n"] failing, the handler still
    replies (with ["x\n"]) and goes on to append ["b\n"]. *)
Lemma append_failure_does_not_close :
  ~ quiet_after_append_failure
      (trace (snd (handle_client
                     (mkConn "10.0.0.7" [["a"; newline; "b"; newline]]%byte)
                     (set_fwrite_q [false]
                        (set_file ["x"; newline]%byte (fresh_world x00)))))).
Proof.
  intros H.
  destruct (H [Syslog LOG_INFO "Accepted connection from 10.0.0.7"]
              ["a"; newline]%byte
              [Sent ["x"; newline]%byte;
               Append ["b"; newline]%byte true;
               Sent ["x"; newline; "b"; newline]%byte;
               Syslog LOG_INFO "Closed connection from 10.0.0.7"]
              eq_refl) as [Happ _].
  discriminate Happ.
Qed.

(** C6, amended.  The result of the append is not looked at: the
    handler goes on to the reply whether or not the packet reached the
    file, and sends what the file then holds.  It leaves directly, with
    an error logged, nothing sent and everything released, exactly when
    the data file cannot be reopened for reading. *)
Theorem append_result_is_dropped (p : list byte) (w : World) :
  Forall (eq SentAll)
         (firstn (length (reply_blocks (file_after_append p w))) (send_q w)) ->
  exists w',
    file w' = file_after_append p w /\
    if hd true (fopen_q w) then
      process_packet p w = (Next tt, w') /\
      trace w'
      = trace w ++ Append p (hd true (fwrite_q w))
          :: map Sent (reply_blocks (file_after_append p w)) /\
      held w' = held w
    else
      process_packet p w = (Return, w') /\
      trace w'
      = trace w ++ [Append p (hd true (fwrite_q w));
                    Syslog LOG_ERR
                      ("Failed to open " ++ DATAFILE ++ " for reading")] /\
      held w' = release_one RSock (release_one RFile (release_one RBuf (held w))).
Proof.
  intros Hs. rewrite process_packet_spec. cbv zeta.
  fold (file_after_append p w).
  destruct (hd true (fopen_q w)).
  - unfold bind. rewrite send_blocks_all by exact Hs.
    eexists. split; [|split; [reflexivity|]]; cbn; [reflexivity|].
    split; [|reflexivity]. now rewrite <- app_assoc.
  - eexists. split; [|split; [reflexivity|]]; cbn; [reflexivity|].
    split; [|reflexivity]. now rewrite <- app_assoc.
Qed.

Lemma append_result_is_dropped_witness :
  exists w',
    file w' = ["x"; newline]%byte /\
    process_packet ["a"; newline]%byte
      (set_fwrite_q [false] (set_file ["x"; newline]%byte (fresh_world x00)))
    = (Next tt, w') /\
    trace w' = [Append ["a"; newline]%byte false; Sent ["x"; newline]%byte] /\
    held w' = [RSock].
Proof.
  apply (append_result_is_dropped ["a"; newline]%byte
           (set_fwrite_q [false] (set_file ["x"; newline]%byte (fresh_world x00)))).
  cbn. constructor.
Defined.

(** ** Running out of memory *)

Lemma call_return (m : M unit) (w w' : World) :
  m w = (Return, w') -> call m w = (Next tt, w').
Proof. unfold call. now intros ->. Qed.

(** The accept loop takes the next connection once a handler has
    returned, however it returned. *)
Lemma accept_loop_after_return (c : Conn) (script : list AcceptResult) (w w' : World) :
  sig w = None ->
  handle_client c (set_held (RSock :: held w) w) = (Return, w') ->
  accept_loop (Accepted c :: script) w = accept_loop script w'.
Proof.
  intros Hs Hc. cbn [accept_loop].
  assert (E : exit_requested w = (Next false, w))
    by (unfold exit_requested; now rewrite Hs).
  rewrite (bind_next _ _ _ _ _ E).
  erewrite bind_next by reflexivity.
  rewrite (bind_next _ _ _ _ _ (call_return _ _ _ Hc)).
  reflexivity.
Qed.

Lemma ingest_realloc_failure (b : Buf) (temp : list byte) (w : World) :
  buf_inv b ->
  bufsize b < 2 ^ 63 ->
  valid_chunk temp ->
  bufsize b <= datalen b + Z.of_nat (length temp) ->
  hd true (alloc_q w) = false ->
  ingest b temp w
  = (Return,
     bailed (set_trace (trace w ++ [Syslog LOG_ERR "realloc failed"])
               (set_alloc_q (tl (alloc_q w)) w))).
Proof.
  intros Hinv Hbig Hvalid Hneed Hfail.
  pose proof Hvalid as [Hpos Hmax].
  unfold ingest.
  replace (Z.to_nat (Z.of_nat (length temp))) with (S (length temp - 1)) by lia.
  cbn [ingest_loop].
  replace (0 <? Z.of_nat (length temp)) with true by (symmetry; apply Z.ltb_lt; lia).
  unfold bind at 1. rewrite resize_if_needed_spec by assumption.
  replace (datalen b + Z.of_nat (length temp) >=? bufsize b) with true
    by (symmetry; apply Z.geb_le; lia).
  now rewrite Hfail.
Qed.

(** C7 (allocation failure).  When the block has to grow and [realloc]
    fails, the iteration ends the handler at once: one error is logged,
    nothing is appended or sent, the buffer, the file and the socket
    are released, and the handler returns to its caller, whose accept
    loop goes on with the next connection. *)
Theorem realloc_failure_ends_connection_only
        (b : Buf) (temp : list byte) (w : World) :
  buf_inv b ->
  bufsize b < 2 ^ 63 ->
  valid_chunk temp ->
  bufsize b <= datalen b + Z.of_nat (length temp) ->
  hd true (alloc_q w) = false ->
  exists w',
    ingest b temp w = (Return, w') /\
    file w' = file w /\
    trace w' = trace w ++ [Syslog LOG_ERR "realloc failed"] /\
    held w' = release_one RSock (release_one RFile (release_one RBuf (held w))) /\
    (forall rest, sig w = None -> recv_loop b (temp :: rest) w = (Return, w')) /\
    (forall k : Buf -> M unit, call (bind (ingest b temp) k) w = (Next tt, w')) /\
    (forall c script w0,
        sig w0 = None ->
        handle_client c (set_held (RSock :: held w0) w0) = (Return, w') ->
        accept_loop (Accepted c :: script) w0 = accept_loop script w').
Proof.
  intros Hinv Hbig Hvalid Hneed Hfail.
  pose proof Hvalid as [Hpos Hmax].
  pose proof (ingest_realloc_failure b temp w Hinv Hbig Hvalid Hneed Hfail) as Hi.
  eexists. split; [exact Hi|]. repeat split.
  - intros rest Hs. cbn [recv_loop].
    assert (E : exit_requested w = (Next false, w))
      by (unfold exit_requested; now rewrite Hs).
    rewrite (bind_next _ _ _ _ _ E).
    replace (Z.of_nat (length temp) >? 0) with true by (symmetry; apply Z.gtb_lt; lia).
    now rewrite (bind_return _ _ _ _ Hi).
  - intros k. apply call_return. now rewrite (bind_return _ _ _ _ Hi).
  - intros c script w0 Hs Hc. now apply accept_loop_after_return.
Qed.

Lemma realloc_failure_ends_connection_only_witness :
  exists w',
    ingest (mkBuf (repeat "a"%byte 600 ++ repeat x00 424) 1024 600)
           (repeat "b"%byte 424)
           (set_alloc_q [false] (fresh_world x00)) = (Return, w') /\
    file w' = [] /\
    trace w' = [Syslog LOG_ERR "realloc failed"] /\
    held w' = release_one RSock (release_one RFile (release_one RBuf [RSock])) /\
    (forall rest,
        sig (set_alloc_q [false] (fresh_world x00)) = None ->
        recv_loop (mkBuf (repeat "a"%byte 600 ++ repeat x00 424) 1024 600)
                  (repeat "b"%byte 424 :: rest)
                  (set_alloc_q [false] (fresh_world x00)) = (Return, w')) /\
    (forall k : Buf -> M unit,
        call (bind (ingest (mkBuf (repeat "a"%byte 600 ++ repeat x00 424) 1024 600)
                           (repeat "b"%byte 424)) k)
             (set_alloc_q [false] (fresh_world x00)) = (Next tt, w')) /\
    (forall c script w0,
        sig w0 = None ->
        handle_client c (set_held (RSock :: held w0) w0) = (Return, w') ->
        accept_loop (Accepted c :: script) w0 = accept_loop script w').
Proof.
  apply (realloc_failure_ends_connection_only
           (mkBuf (repeat "a"%byte 600 ++ repeat x00 424) 1024 600)
           (repeat "b"%byte 424)
           (set_alloc_q [false] (fresh_world x00))).
  - constructor; cbn [datalen bufsize recvbuf]; try lia.
    + vm_compute. reflexivity.
    + vm_compute. repeat constructor.
  - reflexivity.
  - split; vm_compute; lia.
  - vm_compute. discriminate.
  - reflexivity.
Defined.

(** A server run in which the first client's handler runs out of memory
    and the second client is served as usual. *)
Example server_survives_realloc_failure :
  let first := mkConn "10.0.0.7" [repeat "a"%byte 512; repeat "a"%byte 512] in
  let second := mkConn "10.0.0.8" [["b"; newline]]%byte in
  let w := mkWorld [] [] [] x00 None [true; false] [] [] [] in
  let r := listen_socket [Accepted first; Accepted second] w in
  fst r = Next 0 /\
  trace (snd r)
  = [Syslog LOG_INFO "Accepted connection from 10.0.0.7";
     Syslog LOG_ERR "realloc failed";
     Syslog LOG_INFO "Accepted connection from 10.0.0.8";
     Append ["b"; newline]%byte true;
     Sent ["b"; newline]%byte;
     Syslog LOG_INFO "Closed connection from 10.0.0.8"] /\
  held (snd r) = [].
Proof. vm_compute. repeat split. Qed.

(** ** The invariant of the receive buffer *)

(** An iteration keeps the invariant, whatever fails meanwhile. *)
Lemma ingest_keeps_invariant (b : Buf) (temp : list byte) (w : World) :
  buf_inv b -> bufsize b < 2 ^ 63 -> valid_chunk temp ->
  ends_well
    (fun b' _ => buf_inv b' /\ contents b' = leftover_of (contents b ++ temp))
    (ingest b temp w).
Proof.
  intros Hinv Hbig Hvalid.
  pose proof (ingest_any b temp w Hinv Hbig Hvalid) as H.
  destruct (ingest b temp w) as [[b'| | |] w']; cbn [ends_well] in *; auto.
  subst b'. destruct Hvalid as [_ Hmax].
  destruct (next_buf_spec b temp (junk w) Hinv Hmax) as (Hi & Hc & _).
  split; assumption.
Qed.

(** ** Chunks without a delimiter, and bare delimiters *)

Lemma scan_loop_no_nl (b : Buf) (fuel i : nat) (start : Z) (w : World) :
  0 <= datalen b ->
  (Z.to_nat (datalen b) <= length (recvbuf b))%nat ->
  no_nl (contents b) ->
  (i + fuel = Z.to_nat (datalen b))%nat ->
  scan_loop fuel b (Z.of_nat i) start w = (Next start, w).
Proof.
  intros H0 Hfit Hnl. revert i.
  induction fuel as [|k IH]; intros i Hfuel; cbn [scan_loop].
  - replace (Z.of_nat i <? datalen b) with false by (symmetry; apply Z.ltb_ge; lia).
    reflexivity.
  - replace (Z.of_nat i <? datalen b) with true by (symmetry; apply Z.ltb_lt; lia).
    rewrite Nat2Z.id.
    assert (Hc : is_nl (nth i (recvbuf b) "000"%byte) = false).
    { unfold no_nl, contents in Hnl. rewrite Forall_nth in Hnl.
      specialize (Hnl i "000"%byte). rewrite nth_firstn in Hnl.
      replace (i <? Z.to_nat (datalen b))%nat with true in Hnl
        by (symmetry; apply Nat.ltb_lt; lia).
      apply Hnl. rewrite length_firstn. lia. }
    rewrite Hc. replace (Z.of_nat i + 1) with (Z.of_nat (S i)) by lia.
    apply IH. lia.
Qed.

(** A chunk without a delimiter, when the block need not grow or grows. *)
Lemma ingest_no_nl (b : Buf) (temp : list byte) (w : World) :
  buf_inv b ->
  bufsize b < 2 ^ 63 ->
  valid_chunk temp ->
  no_nl temp ->
  datalen b + Z.of_nat (length temp) < bufsize b \/ hd true (alloc_q w) = true ->
  exists b' w',
    ingest b temp w = (Next b', w') /\
    contents b' = contents b ++ temp /\
    buf_inv b' /\
    file w' = file w /\
    trace w' = trace w /\
    held w' = held w /\
    sig w' = sig w /\
    fopen_q w' = fopen_q w /\
    fwrite_q w' = fwrite_q w /\
    send_q w' = send_q w.
Proof.
  intros Hinv Hbig Hvalid Hnl Halloc.
  pose proof Hvalid as [Hpos Hmax].
  destruct (grown_spec b temp (junk w) Hinv Hmax) as (Hd & Hc & Hroom & Hblock & Hsize).
  destruct (next_buf_spec b temp (junk w) Hinv Hmax) as (Hninv & Hncont & _).
  pose proof Hinv as [H0 Hr0 Hb0 Hmin Hbnl].
  pose proof SIZE_MOD_val as HM.
  set (g := grown b temp (junk w)) in *.
  destruct (after_copy_spec g temp) as (Hcc & Hcl); [lia | lia |].
  assert (Hcd : datalen (after_copy g temp) = datalen b + Z.of_nat (length temp))
    by (unfold after_copy; cbn [datalen]; lia).
  assert (Hall : no_nl (contents b ++ temp)) by (apply Forall_app; now split).
  assert (Hnext : next_buf b temp (junk w) = after_copy g temp).
  { unfold next_buf, after_scan. fold g. rewrite Hcc, Hc.
    unfold leftover_of. rewrite split_acc_no_nl by assumption. cbn [snd app].
    replace (datalen (after_copy g temp) - Z.of_nat (length (contents b ++ temp)))
      with 0 by (rewrite length_app, Nat2Z.inj_add, contents_length; lia).
    unfold shift_leftover. cbn [andb Z.gtb Z.compare].
    replace (0 =? datalen (after_copy g temp)) with false
      by (symmetry; apply Z.eqb_neq; lia).
    reflexivity. }
  assert (Hrest : forall w1,
    bind (copy_in g temp 0 (Z.of_nat (length temp) - 0))
      (fun b1 => bind (scan_loop (Z.to_nat (datalen b1)) b1 0 0)
         (fun start => ingest_loop (length temp - 1) temp (Z.of_nat (length temp))
                         (shift_leftover b1 start)
                         (0 + (Z.of_nat (length temp) - 0)))) w1
    = (Next (after_copy g temp), w1)).
  { intros w1. rewrite Z.sub_0_r.
    rewrite (bind_next _ _ _ _ _ (copy_in_spec g temp w1 ltac:(lia) ltac:(lia) ltac:(lia))).
    pose proof (scan_loop_no_nl (after_copy g temp)
                  (Z.to_nat (datalen (after_copy g temp))) 0 0 w1
                  ltac:(lia) ltac:(lia)) as Hscan.
    change (Z.of_nat 0) with 0 in Hscan.
    rewrite (bind_next _ _ _ _ _ (Hscan ltac:(rewrite Hcc, Hc; exact Hall) ltac:(lia))).
    replace (shift_leftover (after_copy g temp) 0) with (after_copy g temp).
    - destruct (length temp - 1)%nat; cbn [ingest_loop];
        rewrite Z.add_0_l, Z.ltb_irrefl; reflexivity.
    - unfold shift_leftover. cbn [andb Z.gtb Z.compare].
      replace (0 =? datalen (after_copy g temp)) with false
        by (symmetry; apply Z.eqb_neq; lia).
      reflexivity. }
  assert (Hopen : exists w1,
    resize_if_needed b (Z.of_nat (length temp)) 0 w = (Next g, w1) /\
    file w1 = file w /\ trace w1 = trace w /\ held w1 = held w /\ sig w1 = sig w /\
    fopen_q w1 = fopen_q w /\ fwrite_q w1 = fwrite_q w /\ send_q w1 = send_q w).
  { rewrite resize_if_needed_spec by assumption.
    destruct (datalen b + Z.of_nat (length temp) >=? bufsize b) eqn:E.
    - destruct Halloc as [Hlt | ->]; [apply Z.geb_le in E; lia|].
      eexists. split; [reflexivity|]. repeat split.
    - exists w. repeat split. }
  destruct Hopen as (w1 & Hres & Hf & Ht & Hh & Hs & Ho & Hw & Hq).
  exists (after_copy g temp), w1.
  split.
  - unfold ingest.
    replace (Z.to_nat (Z.of_nat (length temp))) with (S (length temp - 1)) by lia.
    cbn [ingest_loop].
    replace (0 <? Z.of_nat (length temp)) with true by (symmetry; apply Z.ltb_lt; lia).
    rewrite (bind_next _ _ _ _ _ Hres). apply Hrest.
  - split; [now rewrite Hcc, Hc|]. split; [rewrite <- Hnext; exact Hninv|].
    repeat split; assumption.
Qed.

(** C9 (chunk without a delimiter).  Ingesting a chunk that holds no
    delimiter never touches the data file and never sends or appends
    anything.  Unless the block has to grow and cannot (C7), the chunk
    is only added behind the buffered bytes, and the log, the resources
    held and everything else the handler can observe stay as they were. *)
Theorem chunk_without_delimiter (b : Buf) (temp : list byte) (w : World) :
  buf_inv b ->
  bufsize b < 2 ^ 63 ->
  valid_chunk temp ->
  no_nl temp ->
  let r := ingest b temp w in
  file (snd r) = file w /\
  appended (trace (snd r)) = appended (trace w) /\
  wire (trace (snd r)) = wire (trace w) /\
  (datalen b + Z.of_nat (length temp) < bufsize b \/ hd true (alloc_q w) = true ->
   exists b',
     fst r = Next b' /\
     contents b' = contents b ++ temp /\
     buf_inv b' /\
     trace (snd r) = trace w /\
     held (snd r) = held w /\
     sig (snd r) = sig w /\
     fopen_q (snd r) = fopen_q w /\
     fwrite_q (snd r) = fwrite_q w /\
     send_q (snd r) = send_q w).
Proof.
  intros Hinv Hbig Hvalid Hnl r.
  assert (Hok : datalen b + Z.of_nat (length temp) < bufsize b \/
                hd true (alloc_q w) = true ->
                exists b' w',
                  r = (Next b', w') /\ contents b' = contents b ++ temp /\
                  buf_inv b' /\ file w' = file w /\ trace w' = trace w /\
                  held w' = held w /\ sig w' = sig w /\ fopen_q w' = fopen_q w /\
                  fwrite_q w' = fwrite_q w /\ send_q w' = send_q w).
  { intros H. now apply ingest_no_nl. }
  destruct (Z.lt_ge_cases (datalen b + Z.of_nat (length temp)) (bufsize b)) as [Hlt | Hge];
    [|destruct (hd true (alloc_q w)) eqn:Ha].
  - destruct (Hok (or_introl Hlt)) as (b' & w' & -> & Hc & Hi & Hf & Ht & Hrest).
    destruct Hrest as (Hh & Hs & Ho & Hw & Hq).
    cbn [fst snd]. rewrite Ht. repeat split; try assumption.
    intros _. exists b'.
    split; [reflexivity|]. split; [exact Hc|]. split; [exact Hi|].
    repeat split; assumption.
  - destruct (Hok (or_intror eq_refl)) as (b' & w' & -> & Hc & Hi & Hf & Ht & Hrest).
    destruct Hrest as (Hh & Hs & Ho & Hw & Hq).
    cbn [fst snd]. rewrite Ht. repeat split; try assumption.
    intros _. exists b'.
    split; [reflexivity|]. split; [exact Hc|]. split; [exact Hi|].
    repeat split; assumption.
  - subst r. rewrite (ingest_realloc_failure b temp w) by assumption.
    cbn [snd]. unfold bailed, set_held, set_trace, set_alloc_q.
    cbn [file trace]. rewrite appended_app, wire_app. cbn [appended wire].
    rewrite !app_nil_r. repeat split.
    intros [Hlt | Hno]; [lia | discriminate].
Qed.

Lemma chunk_without_delimiter_witness :
  let r := ingest (fresh_buf x00) ["a"; "b"]%byte
                  (set_file ["x"; newline]%byte (fresh_world x00)) in
  file (snd r) = ["x"; newline]%byte /\
  appended (trace (snd r)) = [] /\
  wire (trace (snd r)) = [] /\
  exists b',
    fst r = Next b' /\
    contents b' = ["a"; "b"]%byte /\
    buf_inv b' /\
    trace (snd r) = [] /\
    held (snd r) = [RSock] /\
    sig (snd r) = None /\
    fopen_q (snd r) = [] /\
    fwrite_q (snd r) = [] /\
    send_q (snd r) = [].
Proof.
  destruct (chunk_without_delimiter (fresh_buf x00) ["a"; "b"]%byte
              (set_file ["x"; newline]%byte (fresh_world x00)))
    as (Hf & Ha & Hw & Hok).
  - apply fresh_buf_inv.
  - reflexivity.
  - split; vm_compute; lia.
  - repeat constructor.
  - split; [exact Hf|]. split; [exact Ha|]. split; [exact Hw|].
    apply Hok. left. reflexivity.
Defined.

(** C10 (bare delimiter).  A delimiter met right at a cut point (at the
    start of an empty buffer, or directly behind another delimiter) is a
    packet of its own: the handler serves the one byte by the same steps
    as any other packet, between the packets before it and those after
    it; when nothing fails that is one more append, of the delimiter
    alone, followed by the whole file sent back. *)
Theorem bare_delimiter_is_a_packet
        (b : Buf) (pre rest : list byte) (w : World) :
  steady w ->
  buf_inv b ->
  bufsize b < 2 ^ 63 ->
  valid_chunk (pre ++ newline :: rest) ->
  leftover_of (contents b ++ pre) = [] ->
  let b' := next_buf b (pre ++ newline :: rest) (junk w) in
  let w1 := served (packets_of (contents b ++ pre)) w in
  let w2 := serve1 w1 [newline] in
  ingest b (pre ++ newline :: rest) w
  = bind (process_all (packets_of (contents b ++ pre)))
         (fun _ => bind (process_packet [newline])
                     (fun _ => bind (process_all (packets_of rest))
                                 (fun _ => ret b'))) w /\
  contents b' = leftover_of rest /\
  (calm w ->
   ingest b (pre ++ newline :: rest) w = (Next b', served (packets_of rest) w2) /\
   file w2 = file w1 ++ [newline] /\
   trace w2
   = trace w1 ++ Append [newline] true
       :: map Sent (reply_blocks (file w1 ++ [newline])) /\
   concat (reply_blocks (file w1 ++ [newline])) = file w2).
Proof.
  intros Hst Hinv Hbig Hvalid Hcut b' w1 w2.
  pose proof Hvalid as [_ Hmax].
  destruct (next_buf_spec b (pre ++ newline :: rest) (junk w) Hinv Hmax)
    as (_ & Hcont & _).
  assert (Hsplit : split_acc [] (contents b ++ pre ++ newline :: rest)
                   = (packets_of (contents b ++ pre) ++ [newline] :: packets_of rest,
                      leftover_of rest)).
  { rewrite app_assoc, split_acc_app.
    fold (leftover_of (contents b ++ pre)). rewrite Hcut.
    cbn [split_acc]. change (is_nl newline) with true. cbn [app].
    unfold packets_of, leftover_of.
    destruct (split_acc [] rest) as [ps r]. reflexivity. }
  assert (Hpk : packets_of (contents b ++ pre ++ newline :: rest)
                = packets_of (contents b ++ pre) ++ [newline] :: packets_of rest)
    by (unfold packets_of at 1; now rewrite Hsplit).
  split; [|split].
  - rewrite ingest_process by assumption. rewrite Hpk.
    rewrite (bind_on _ _ _ _ (process_all_app _ _ _)), bind_assoc.
    apply bind_congr. intros [] w' _. cbn [process_all].
    now rewrite bind_assoc.
  - subst b'. rewrite Hcont. unfold leftover_of at 1. now rewrite Hsplit.
  - intros Hcalm. split; [|split; [|split]].
    + rewrite ingest_calm by assumption. f_equal. rewrite Hpk, served_app.
      reflexivity.
    + subst w2. destruct w1; reflexivity.
    + subst w2. destruct w1; reflexivity.
    + rewrite reply_blocks_concat. subst w2. destruct w1; reflexivity.
Qed.

Lemma bare_delimiter_is_a_packet_witness :
  let w := set_file ["x"; newline]%byte (fresh_world x00) in
  let b' := next_buf (fresh_buf x00) (["a"; newline]%byte ++ newline :: []) x00 in
  let w1 := served (packets_of (contents (fresh_buf x00) ++ ["a"; newline]%byte)) w in
  let w2 := serve1 w1 [newline] in
  ingest (fresh_buf x00) (["a"; newline]%byte ++ newline :: []) w
  = bind (process_all (packets_of (contents (fresh_buf x00) ++ ["a"; newline]%byte)))
         (fun _ => bind (process_packet [newline])
                     (fun _ => bind (process_all (packets_of []))
                                 (fun _ => ret b'))) w /\
  contents b' = leftover_of [] /\
  ingest (fresh_buf x00) (["a"; newline]%byte ++ newline :: []) w
  = (Next b', served (packets_of []) w2) /\
  file w2 = ["x"; newline; "a"; newline; newline]%byte /\
  trace w2
  = [Append ["a"; newline]%byte true;
     Sent ["x"; newline; "a"; newline]%byte;
     Append [newline] true;
     Sent ["x"; newline; "a"; newline; newline]%byte] /\
  concat (reply_blocks (file w1 ++ [newline])) = file w2.
Proof.
  destruct (bare_delimiter_is_a_packet (fresh_buf x00) ["a"; newline]%byte []
              (set_file ["x"; newline]%byte (fresh_world x00)))
    as (Hrun & Htail & Hcalm).
  - split; reflexivity.
  - apply fresh_buf_inv.
  - reflexivity.
  - split; vm_compute; lia.
  - reflexivity.
  - split; [exact Hrun|]. split; [exact Htail|]. apply Hcalm. repeat split.
Defined.

(** ** The older variant

    [server/aesdassignment.c] has no reassembler: what it appends is
    the chunks as they arrive, it reads no further than the first chunk
    with a newline, and it replies once, line by line.  (The
    specification sets this variant aside in its design notes.) *)

Example assignment_one_append_per_read (ip : string) (fill : byte) :
  trace (snd (Assignment.serve_connection
                (mkConn ip [["a"; newline; "b"; newline]]%byte)
                (fresh_world fill)))
  = [Syslog LOG_INFO ("Accepted connection from " ++ ip);
     Append ["a"; newline; "b"; newline]%byte true;
     Sent ["a"; newline]%byte;
     Sent ["b"; newline]%byte;
     Syslog LOG_INFO ("Closed connection from " ++ ip)].
Proof. vm_compute. reflexivity. Qed.

Example assignment_stops_at_first_newline (ip : string) (fill : byte) :
  trace (snd (Assignment.serve_connection
                (mkConn ip [["a"; newline]; ["b"; newline]]%byte)
                (fresh_world fill)))
  = [Syslog LOG_INFO ("Accepted connection from " ++ ip);
     Append ["a"; newline]%byte true;
     Sent ["a"; newline]%byte;
     Syslog LOG_INFO ("Closed connection from " ++ ip)].
Proof. vm_compute. reflexivity. Qed.

(** * Beyond the claims *)

(** ** What every path of the handler keeps *)

Lemma stored_app (t1 t2 : list Event) : stored (t1 ++ t2) = stored t1 ++ stored t2.
Proof.
  induction t1 as [|e t1 IH]; cbn [app stored]; [reflexivity|].
  destruct e as [| |p [|]| |]; rewrite IH; try reflexivity. now rewrite app_assoc.
Qed.

Lemma grows_refl (w : World) : grows w w.
Proof. exists []. cbn. now rewrite !app_nil_r. Qed.

Lemma grows_trans (w1 w2 w3 : World) : grows w1 w2 -> grows w2 w3 -> grows w1 w3.
Proof.
  intros (e1 & Ht1 & Hf1) (e2 & Ht2 & Hf2). exists (e1 ++ e2).
  rewrite Ht2, Ht1, Hf2, Hf1, stored_app, !app_assoc. split; reflexivity.
Qed.

Lemma quietly_refl (w : World) : quietly w w.
Proof. split; [apply grows_refl | reflexivity]. Qed.

Lemma quietly_trans (w1 w2 w3 : World) :
  quietly w1 w2 -> quietly w2 w3 -> quietly w1 w3.
Proof.
  intros [G1 S1] [G2 S2]. split; [eapply grows_trans; eassumption | congruence].
Qed.

Lemma tidy_bind {A B} (R : World -> World -> Prop) (m : M A) (k : A -> M B) (w : World) :
  (forall w1 w2 w3, R w1 w2 -> R w2 w3 -> R w1 w3) ->
  tidy R w (m w) ->
  (forall a w', tidy R w' (k a w')) ->
  tidy R w (bind m k w).
Proof.
  intros Htrans Hm Hk. unfold bind.
  destruct (m w) as [[a| | |] w1]; cbn [tidy] in *; try assumption.
  destruct Hm as [HR Hh]. specialize (Hk a w1).
  destruct (k a w1) as [[b| | |] w2]; cbn [tidy] in *.
  - destruct Hk as [HR2 Hh2]. split; [eauto | congruence].
  - destruct Hk as [HR2 Hh2]. split; [eauto | congruence].
  - eauto.
  - eauto.
Qed.

Lemma tidy_weaken {A} (R R' : World -> World -> Prop) (w : World) (r : Flow A * World) :
  (forall w1 w2, R w1 w2 -> R' w1 w2) -> tidy R w r -> tidy R' w r.
Proof.
  intros H. destruct r as [[a| | |] w']; cbn [tidy]; intuition auto.
Qed.

Lemma emit_quietly (e : Event) (w : World) :
  stored [e] = [] -> tidy quietly w (emit e w).
Proof.
  intros He. unfold emit. cbn [tidy]. split; [|reflexivity].
  split; [|reflexivity]. exists [e]. rewrite He, app_nil_r. split; reflexivity.
Qed.

Lemma send_blocks_trace (bs : list (list byte)) (w : World) :
  exists evs,
    trace (snd (send_blocks bs w)) = trace w ++ evs /\ stored evs = [].
Proof.
  revert w; induction bs as [|b bs IH]; intros w; cbn [send_blocks].
  - exists []. cbn. now rewrite app_nil_r.
  - unfold bind, send_lt_0. rewrite pop_hd_tl.
    destruct (hd SentAll (send_q w)) as [|k|].
    + match goal with |- context [send_blocks bs ?w1] =>
        destruct (IH w1) as (evs & Ht & Hs) end.
      exists (Sent b :: evs). rewrite Ht. cbn. rewrite <- app_assoc. now split.
    + match goal with |- context [send_blocks bs ?w1] =>
        destruct (IH w1) as (evs & Ht & Hs) end.
      exists (Sent (firstn k b) :: evs). rewrite Ht. cbn. rewrite <- app_assoc. now split.
    + exists [SendFailed b; Syslog LOG_ERR "Failed to send data to client"].
      cbn. rewrite <- app_assoc. now split.
Qed.

Lemma process_packet_tidy (p : list byte) (w : World) :
  tidy quietly w (process_packet p w).
Proof.
  rewrite process_packet_spec. cbv zeta.
  destruct (hd true (fopen_q w)).
  - unfold bind.
    match goal with |- context [send_blocks ?bs ?w1] =>
      destruct (send_blocks_trace bs w1) as (evs & Ht & Hst);
      destruct (send_blocks_next bs w1) as (w2 & E & Hf & Hh & _ & Hs & _)
    end.
    rewrite E in *. cbn [snd tidy fclose release] in *. cbn in Ht, Hf, Hh, Hs.
    split; [split|].
    + exists (Append p (hd true (fwrite_q w)) :: evs). cbn [trace file set_held].
      rewrite Ht, Hf, <- app_assoc. split; [reflexivity|].
      destruct (hd true (fwrite_q w)); cbn [stored]; rewrite Hst;
        now rewrite ?app_nil_r.
    + cbn. exact Hs.
    + cbn. rewrite Hh. cbn. reflexivity.
  - cbn [tidy]. split; [split|].
    + eexists [Append p (hd true (fwrite_q w)); Syslog LOG_ERR _]. cbn.
      rewrite <- app_assoc. split; [reflexivity|].
      destruct (hd true (fwrite_q w)); cbn; now rewrite ?app_nil_r.
    + reflexivity.
    + reflexivity.
Qed.

Lemma ret_tidy {A} (a : A) (w : World) : tidy quietly w (ret a w).
Proof. cbn. split; [apply quietly_refl | reflexivity]. Qed.

Lemma scan_loop_tidy (fuel : nat) (b : Buf) (i start : Z) (w : World) :
  tidy quietly w (scan_loop fuel b i start w).
Proof.
  revert i start w; induction fuel as [|k IH]; intros i start w; cbn [scan_loop];
    (destruct (i <? datalen b); [|apply ret_tidy]).
  - cbn. apply quietly_refl.
  - destruct (is_nl _).
    + apply tidy_bind; [apply quietly_trans | apply process_packet_tidy |].
      intros _ w'. apply IH.
    + apply IH.
Qed.

Lemma resize_if_needed_tidy (b : Buf) (n temp_offset : Z) (w : World) :
  tidy quietly w (resize_if_needed b n temp_offset w).
Proof.
  unfold resize_if_needed.
  destruct (_ >=? _); [|cbn; split; [apply quietly_refl | reflexivity]].
  destruct (grow_size _ _ _) as [newsize|]; [|cbn; apply quietly_refl].
  unfold bind, realloc. rewrite pop_hd_tl.
  destruct (hd true (alloc_q w)); cbn.
  - split; [split|]; try reflexivity. exists []. cbn. now rewrite !app_nil_r.
  - split; [split|]; try reflexivity.
    exists [Syslog LOG_ERR "realloc failed"]. cbn. now rewrite app_nil_r.
Qed.

Lemma copy_in_tidy (b : Buf) (temp : list byte) (temp_offset copylen : Z) (w : World) :
  tidy quietly w (copy_in b temp temp_offset copylen w).
Proof.
  unfold copy_in. destruct (_ <=? _); cbn.
  - split; [apply quietly_refl | reflexivity].
  - apply quietly_refl.
Qed.

Lemma ingest_loop_tidy (fuel : nat) (temp : list byte) (n : Z) (b : Buf)
      (temp_offset : Z) (w : World) :
  tidy quietly w (ingest_loop fuel temp n b temp_offset w).
Proof.
  revert b temp_offset w; induction fuel as [|k IH]; intros b temp_offset w;
    cbn [ingest_loop]; (destruct (temp_offset <? n); [|apply ret_tidy]).
  - cbn. apply quietly_refl.
  - apply tidy_bind; [apply quietly_trans | apply resize_if_needed_tidy |].
    intros b1 w1.
    apply tidy_bind; [apply quietly_trans | apply copy_in_tidy |].
    intros b2 w2.
    apply tidy_bind; [apply quietly_trans | apply scan_loop_tidy |].
    intros s w3. apply IH.
Qed.

Lemma ingest_tidy (b : Buf) (temp : list byte) (w : World) :
  tidy quietly w (ingest b temp w).
Proof. apply ingest_loop_tidy. Qed.

Lemma exit_requested_grows (w : World) :
  tidy grows w (exit_requested w).
Proof.
  unfold exit_requested. destruct (sig w) as [[|k]|]; cbn;
    (split; [|reflexivity]); try apply grows_refl.
  exists []. cbn. now rewrite !app_nil_r.
Qed.

Lemma recv_loop_tidy (script : list (list byte)) (b : Buf) (w : World) :
  tidy grows w (recv_loop b script w).
Proof.
  revert b w; induction script as [|c cs IH]; intros b w; cbn [recv_loop];
    (apply tidy_bind; [apply grows_trans | apply exit_requested_grows |]);
    intros [|] w1; try (cbn; split; [apply grows_refl | reflexivity]).
  destruct (_ >? 0); [|cbn; split; [apply grows_refl | reflexivity]].
  apply tidy_bind; [apply grows_trans | |].
  - eapply tidy_weaken; [|apply ingest_tidy]. intros ? ? [G _]. exact G.
  - intros b' w2. apply IH.
Qed.


Lemma grows_then_emit (e : Event) (w w' : World) :
  stored [e] = [] -> grows w w' -> grows w (set_trace (trace w' ++ [e]) w').
Proof.
  intros He H. eapply grows_trans; [exact H|].
  exists [e]. rewrite He, app_nil_r. split; reflexivity.
Qed.

(** [handle_client] laid out by what [fopen] and [malloc] answer. *)
Lemma handle_client_unfold (c : Conn) (w : World) :
  handle_client c w
  = let w1 := set_trace
                (trace w ++ [Syslog LOG_INFO ("Accepted connection from " ++ client_ip c)])
                (set_fopen_q (tl (fopen_q w)) w) in
    if hd true (fopen_q w) then
      if hd true (alloc_q w) then
        bind (recv_loop (fresh_buf (junk w)) (incoming c))
             (fun _ =>
                release RBuf ;; fclose RFile ;; release RSock ;;
                syslog LOG_INFO ("Closed connection from " ++ client_ip c)%string)
             (set_held (RBuf :: RFile :: held w) (set_alloc_q (tl (alloc_q w)) w1))
      else
        (Return,
         set_held (release_one RSock (held w))
           (set_trace (trace w1 ++ [Syslog LOG_ERR "malloc failed"])
              (set_alloc_q (tl (alloc_q w)) w1)))
    else
      (Return,
       set_held (release_one RSock (held w))
         (set_trace (trace w1 ++ [Syslog LOG_ERR ("Failed to open " ++ DATAFILE)]) w1)).
Proof.
  destruct w as [f t h j s a fo fw sq].
  destruct fo as [|[|] fo]; destruct a as [|[|] a]; reflexivity.
Qed.

(** Every way out of [handle_client] has extended the log, let the file
    grow by the appends that succeeded, and closed the socket and
    whatever the handler had opened. *)
Lemma handle_client_tidy (c : Conn) (w : World) :
  match handle_client c w with
  | (Next _, w') | (Return, w') =>
      grows w w' /\ held w' = release_one RSock (held w)
  | (_, w') => grows w w'
  end.
Proof.
  rewrite handle_client_unfold. cbv zeta.
  destruct (hd true (fopen_q w)).
  - destruct (hd true (alloc_q w)).
    + match goal with |- context [bind (recv_loop ?b ?s) ?k ?W] =>
        pose proof (recv_loop_tidy s b W) as Hloop;
        assert (Hstart : forall w1, grows W w1 -> grows w w1)
      end.
      { intros w1 (evs & Ht & Hf).
        exists (Syslog LOG_INFO ("Accepted connection from " ++ client_ip c) :: evs).
        rewrite Ht, Hf. cbn. rewrite <- app_assoc. now split. }
      unfold bind at 1.
      destruct (recv_loop _ _ _) as [[b'| | |] w1]; cbn [tidy] in Hloop.
      * destruct Hloop as [G Hh].
        unfold bind, release, fclose, release, syslog, emit, set_held, set_trace.
        cbn [file trace held junk sig alloc_q fopen_q fwrite_q send_q] in *.
        rewrite Hh. cbn [release_one Resource_eqb].
        split; [|reflexivity].
        destruct (Hstart w1 G) as (evs & Ht & Hf).
        exists (evs ++ [Syslog LOG_INFO ("Closed connection from " ++ client_ip c)]).
        cbn [file trace]. rewrite Ht, Hf, stored_app. cbn [stored].
        rewrite app_assoc, app_nil_r. now split.
      * destruct Hloop as [G Hh].
        unfold set_held, set_trace, released in *.
        cbn [file trace held junk sig alloc_q fopen_q fwrite_q send_q] in *.
        rewrite Hh. cbn [release_one Resource_eqb].
        split; [auto | reflexivity].
      * auto.
      * auto.
    + cbn. split; [|reflexivity].
      exists [Syslog LOG_INFO ("Accepted connection from " ++ client_ip c);
              Syslog LOG_ERR "malloc failed"].
      cbn. rewrite <- app_assoc, app_nil_r. now split.
  - cbn. split; [|reflexivity].
    exists [Syslog LOG_INFO ("Accepted connection from " ++ client_ip c);
            Syslog LOG_ERR ("Failed to open " ++ DATAFILE)].
    cbn. rewrite <- app_assoc, app_nil_r. now split.
Qed.

(** With chunks that fit [temp], the handler neither hangs nor writes
    out of bounds, whatever fails. *)
Lemma handle_client_ends (c : Conn) (w : World) :
  servable c ->
  ends_well (fun _ _ => True) (handle_client c w).
Proof.
  intros [Hall Hlen]. rewrite handle_client_unfold. cbv zeta.
  destruct (hd true (fopen_q w)); [|exact I].
  destruct (hd true (alloc_q w)); [|exact I].
  match goal with |- context [bind (recv_loop ?b ?s) ?k ?W] =>
    pose proof (recv_loop_any s b W 0 (fresh_buf_inv _)
                  ltac:(cbn; lia) ltac:(cbn; lia) ltac:(lia) Hall) as Hloop
  end.
  unfold bind at 1.
  destruct (recv_loop _ _ _) as [[b'| | |] w1]; cbn [ends_well] in Hloop;
    try contradiction; exact I.
Qed.

(** X1.  As long as every library call returns to the handler (a [send]
    to a peer that has gone raises SIGPIPE instead, which ends the
    process and lies outside this model): whatever the client sends in
    chunks that fit [temp], and whichever failures [fopen], [malloc],
    [realloc], [fwrite] and [send] report, [handle_client] comes back,
    by falling off its end or by one of its [return]s; it neither loops
    for ever nor writes out of bounds.  It has then closed the client
    socket and released the file, the buffer and the reader it had
    opened: what is held afterwards is what was held before, less the
    socket. *)
Theorem handle_client_releases_everything (c : Conn) (w : World) :
  servable c ->
  match handle_client c w with
  | (Next _, w') | (Return, w') => held w' = release_one RSock (held w)
  | (Hang, _) | (Overrun, _) => False
  end.
Proof.
  intros Hc.
  pose proof (handle_client_tidy c w) as Ht.
  pose proof (handle_client_ends c w Hc) as He.
  destruct (handle_client c w) as [[[]| | |] w']; cbn [ends_well] in He;
    try contradiction; apply Ht.
Qed.

Lemma handle_client_releases_everything_witness :
  match handle_client (mkConn "10.0.0.7" [["a"; newline; "b"]; ["c"; newline]]%byte)
                      (set_fopen_q [true; false] (fresh_world x00)) with
  | (Next _, w') | (Return, w') =>
      held w' = release_one RSock (held (set_fopen_q [true; false] (fresh_world x00)))
  | (Hang, _) | (Overrun, _) => False
  end.
Proof.
  apply (handle_client_releases_everything
           (mkConn "10.0.0.7" [["a"; newline; "b"]; ["c"; newline]]%byte)
           (set_fopen_q [true; false] (fresh_world x00))).
  split.
  - repeat constructor.
  - reflexivity.
Defined.

(** ** Shutdown seen by the receive loop *)

Lemma ingest_keeps_sig (b b' : Buf) (temp : list byte) (w w' : World) :
  ingest b temp w = (Next b', w') -> sig w' = sig w.
Proof.
  intros E. pose proof (ingest_tidy b temp w) as H. rewrite E in H.
  cbn [tidy] in H. apply H.
Qed.

Lemma recv_loop_until_signal (k : nat) :
  forall (script : list (list byte)) (b : Buf) (w : World),
    sig w = Some k ->
    recv_loop b script w = recv_loop b (firstn k script) w.
Proof.
  induction k as [|k IH]; intros script b w Hs.
  - destruct script as [|c cs]; cbn [firstn recv_loop]; [reflexivity|].
    unfold bind, exit_requested. rewrite Hs. reflexivity.
  - destruct script as [|c cs]; cbn [firstn recv_loop]; [reflexivity|].
    apply bind_congr. intros stop w1 E1.
    assert (Hs1 : sig w1 = Some k).
    { unfold exit_requested in E1. rewrite Hs in E1. inversion E1. reflexivity. }
    destruct stop; [reflexivity|].
    destruct (_ >? 0); [|reflexivity].
    apply bind_congr. intros b' w2 E2.
    apply IH. rewrite (ingest_keeps_sig _ _ _ _ _ E2). exact Hs1.
Qed.

(** ** The invariant of the receive buffer over a run *)




(** ** Shutdown seen by a connection *)

(** X3.  Once the shutdown flag reads 1 the handler receives nothing
    more: if the flag is going to read 1 at the check that follows [k]
    reads of 0, the connection runs exactly as if the client had sent
    only its first [k] chunks (the same log, file and outcome); what the
    client sends after them is never read. *)
Theorem shutdown_stops_receiving
        (ip : string) (script : list (list byte)) (k : nat) (w : World) :
  sig w = Some k ->
  handle_client (mkConn ip script) w = handle_client (mkConn ip (firstn k script)) w.
Proof.
  intros Hs. rewrite !handle_client_unfold. cbv zeta. cbn [incoming client_ip].
  destruct (hd true (fopen_q w)); [|reflexivity].
  destruct (hd true (alloc_q w)); [|reflexivity].
  apply bind_on. apply recv_loop_until_signal. exact Hs.
Qed.

Lemma shutdown_stops_receiving_witness :
  handle_client (mkConn "10.0.0.7" [["a"; newline]; ["b"; newline]; ["c"; newline]]%byte)
                (set_sig (Some 1%nat) (fresh_world x00))
  = handle_client (mkConn "10.0.0.7"
                     (firstn 1 [["a"; newline]; ["b"; newline]; ["c"; newline]]%byte))
                  (set_sig (Some 1%nat) (fresh_world x00)).
Proof.
  apply (shutdown_stops_receiving "10.0.0.7"
           [["a"; newline]; ["b"; newline]; ["c"; newline]]%byte 1
           (set_sig (Some 1%nat) (fresh_world x00))).
  reflexivity.
Defined.

(** ** Only whole packets reach the file *)

Lemma process_packet_appended_always (p : list byte) (w : World) :
  appended (trace (snd (process_packet p w))) = appended (trace w) ++ [p].
Proof.
  rewrite process_packet_spec. cbv zeta.
  destruct (hd true (fopen_q w)).
  - unfold bind.
    match goal with |- context [send_blocks ?bs ?w1] =>
      pose proof (send_blocks_appended bs w1) as Happ;
      destruct (send_blocks_next bs w1) as (w2 & E & _)
    end.
    rewrite E in *. cbn [snd] in Happ.
    unfold fclose, release, set_held in *. cbn [snd trace] in *.
    rewrite Happ. now rewrite appended_app.
  - cbn [snd]. unfold bailed, set_held, set_trace. cbn [trace].
    rewrite !appended_app. cbn [appended]. now rewrite app_nil_r.
Qed.

Lemma process_all_appended_prefix (ps : list (list byte)) (w : World) :
  exists k,
    appended (trace (snd (process_all ps w))) = appended (trace w) ++ firstn k ps.
Proof.
  revert w; induction ps as [|p ps IH]; intros w; cbn [process_all].
  - exists 0%nat. cbn. now rewrite app_nil_r.
  - pose proof (process_packet_appended_always p w) as Hp.
    unfold bind. destruct (process_packet p w) as [[[]| | |] w1]; cbn [snd] in *.
    + destruct (IH w1) as (k & Hk). exists (S k).
      rewrite Hk, Hp, <- app_assoc. reflexivity.
    + exists 1%nat. rewrite Hp. destruct ps; reflexivity.
    + exists 1%nat. rewrite Hp. destruct ps; reflexivity.
    + exists 1%nat. rewrite Hp. destruct ps; reflexivity.
Qed.

Lemma handle_packets_unfold (ip : string) (ps : list (list byte)) (w : World) :
  handle_packets ip ps w
  = let w1 := set_trace
                (trace w ++ [Syslog LOG_INFO ("Accepted connection from " ++ ip)])
                (set_fopen_q (tl (fopen_q w)) w) in
    if hd true (fopen_q w) then
      bind (process_all ps)
           (fun _ =>
              release RBuf ;; fclose RFile ;; release RSock ;;
              syslog LOG_INFO ("Closed connection from " ++ ip)%string)
           (set_held (RBuf :: RFile :: held w) w1)
    else
      (Return,
       set_held (release_one RSock (held w))
         (set_trace (trace w1 ++ [Syslog LOG_ERR ("Failed to open " ++ DATAFILE)]) w1)).
Proof.
  destruct w as [f t h j s a fo fw sq].
  destruct fo as [|[|] fo]; reflexivity.
Qed.

Lemma Forall_firstn_keep {A} (P : A -> Prop) (k : nat) (l : list A) :
  Forall P l -> Forall P (firstn k l).
Proof.
  revert l; induction k as [|k IH]; intros [|x l] H; cbn; try constructor.
  - now inversion H.
  - apply IH. now inversion H.
Qed.

(** X4.  Only whole packets reach the file, and in order: whatever the
    file and the socket answer, and wherever a failure ends the
    connection, the packets handed to the store during it are the first
    few packets of the stream the client sent; no partial packet and no
    packet out of turn is ever appended. *)
Theorem only_whole_packets_appended (c : Conn) (w : World) :
  steady w ->
  Forall valid_chunk (incoming c) ->
  Z.of_nat (length (concat (incoming c))) < 2 ^ 62 ->
  exists k,
    appended (trace (snd (handle_client c w)))
    = appended (trace w) ++ firstn k (packets_of (concat (incoming c))) /\
    Forall is_packet (firstn k (packets_of (concat (incoming c)))).
Proof.
  intros Hst Hall Hlen.
  rewrite (handle_client_process c w Hst Hall Hlen), handle_packets_unfold. cbv zeta.
  set (ps := packets_of (concat (incoming c))).
  assert (Hps : forall k, Forall is_packet (firstn k ps)).
  { intros k. apply Forall_firstn_keep. apply split_acc_packets. constructor. }
  destruct (hd true (fopen_q w)).
  - match goal with |- context [bind (process_all ps) ?k ?W] =>
      destruct (process_all_appended_prefix ps W) as (n & Hn)
    end.
    exists n. split; [|apply Hps].
    unfold bind at 1.
    destruct (process_all ps _) as [[[]| | |] w1]; cbn [snd] in *;
      unfold bind, release, fclose, release, syslog, emit, set_held, set_trace in *;
      cbn [snd trace] in *;
      rewrite ?appended_app, Hn, !appended_app; cbn [appended];
      now rewrite ?app_nil_r.
  - exists 0%nat. split; [|apply Hps].
    unfold set_held, set_trace. cbn [snd trace firstn].
    rewrite !appended_app. cbn [appended]. now rewrite !app_nil_r.
Qed.

Lemma only_whole_packets_appended_witness :
  exists k,
    appended (trace (snd (handle_client
                            (mkConn "10.0.0.7" [["a"; newline; "b"]; [newline; "c"]]%byte)
                            (set_fopen_q [true; true; false] (fresh_world x00)))))
    = appended (trace (set_fopen_q [true; true; false] (fresh_world x00)))
      ++ firstn k (packets_of (concat [["a"; newline; "b"]; [newline; "c"]]%byte)) /\
    Forall is_packet
           (firstn k (packets_of (concat [["a"; newline; "b"]; [newline; "c"]]%byte))).
Proof.
  apply (only_whole_packets_appended
           (mkConn "10.0.0.7" [["a"; newline; "b"]; [newline; "c"]]%byte)
           (set_fopen_q [true; true; false] (fresh_world x00))).
  - split; reflexivity.
  - repeat constructor.
  - reflexivity.
Defined.

(** ** The accept loop *)






Lemma calm_set_trace (t : list Event) (w : World) : calm w -> calm (set_trace t w).
Proof. intros H. exact H. Qed.

Lemma calm_set_held (h : list Resource) (w : World) : calm w -> calm (set_held h w).
Proof. intros H. exact H. Qed.

Lemma accept_loop_calm (script : list AcceptResult) :
  forall w,
    calm w ->
    script_valid script ->
    exists w',
      accept_loop script w = (Next tt, w') /\
      file w' = file w ++ concat (script_packets script) /\
      trace w' = trace w ++ script_events (file w) script /\
      held w' = held w.
Proof.
  induction script as [|r script IH]; intros w Hc Hall; cbn [accept_loop];
    rewrite (bind_next _ _ _ _ _ (exit_requested_calm w Hc)).
  - eexists. split; [reflexivity|]. cbn. now rewrite !app_nil_r.
  - inversion Hall as [|? ? Hr Hrest]; subst. destruct r as [c|].
    + destruct Hr as [Hv Hlen].
      erewrite bind_next by reflexivity.
      destruct (handle_client_calm c (set_held (RSock :: held w) w)
                  (calm_set_held _ w Hc) Hv Hlen)
        as (w1 & E & Hf & Ht & Hh & Hc1).
      assert (E1 : call (handle_client c) (set_held (RSock :: held w) w)
                   = (Next tt, w1)) by (unfold call; now rewrite E).
      rewrite (bind_next _ _ _ _ _ E1).
      destruct (IH w1 Hc1 Hrest) as (w' & E' & Hf' & Ht' & Hh').
      exists w'. split; [exact E'|].
      cbn [held set_held file trace release_one Resource_eqb] in Hf, Ht, Hh.
      cbn [script_packets script_events].
      rewrite Hf', Ht', Hh', Hf, Ht, Hh, concat_app.
      repeat rewrite <- app_assoc. cbn [app]. repeat rewrite <- app_assoc.
      cbn [app]. repeat split.
    + rewrite (bind_next _ _ _ _ _ (exit_requested_calm w Hc)).
      erewrite bind_next by reflexivity.
      destruct (IH (set_trace (trace w ++ [Perror "accept"]) w)
                  (calm_set_trace _ w Hc) Hrest) as (w' & E' & Hf' & Ht' & Hh').
      exists w'. split; [exact E'|].
      cbn [held file trace set_trace] in Hf', Ht', Hh'.
      cbn [script_packets script_events].
      rewrite Hf', Ht', Hh', <- app_assoc. repeat split.
Qed.

(** X6.  Connections are served one after the other on one data file:
    when nothing fails but [accept], after a run of [listen_socket] the
    file holds what it held before followed by the packets of every
    connection in the order of acceptance, each reply contains the
    packets of the earlier connections, a failed [accept] leaves only
    its error message, and the trailing bytes of a connection that
    ends without a newline never reach the file nor the next
    connection. *)
Theorem connections_share_the_store (script : list AcceptResult) (w : World) :
  calm w ->
  script_valid script ->
  exists w',
    listen_socket script w = (Next 0, w') /\
    file w' = file w ++ concat (script_packets script) /\
    trace w' = trace w ++ script_events (file w) script /\
    held w' = held w.
Proof.
  intros Hc Hall.
  destruct (accept_loop_calm script w Hc Hall) as (w' & E & Hf & Ht & Hh).
  exists w'. unfold listen_socket. rewrite (bind_next _ _ _ _ _ E).
  split; [reflexivity|]. repeat split; assumption.
Qed.

Lemma connections_share_the_store_witness :
  exists w',
    listen_socket
      [Accepted (mkConn "10.0.0.7" [["a"; newline; "x"]]%byte);
       AcceptFailed;
       Accepted (mkConn "10.0.0.8" [["b"; newline]]%byte)]
      (mkWorld [] [] [] x00 None [] [] [] []) = (Next 0, w') /\
    file w' = ["a"; newline; "b"; newline]%byte /\
    trace w'
    = [Syslog LOG_INFO "Accepted connection from 10.0.0.7";
       Append ["a"; newline]%byte true;
       Sent ["a"; newline]%byte;
       Syslog LOG_INFO "Closed connection from 10.0.0.7";
       Perror "accept";
       Syslog LOG_INFO "Accepted connection from 10.0.0.8";
       Append ["b"; newline]%byte true;
       Sent ["a"; newline; "b"; newline]%byte;
       Syslog LOG_INFO "Closed connection from 10.0.0.8"] /\
    held w' = [].
Proof.
  destruct (connections_share_the_store
              [Accepted (mkConn "10.0.0.7" [["a"; newline; "x"]]%byte);
               AcceptFailed;
               Accepted (mkConn "10.0.0.8" [["b"; newline]]%byte)]
              (mkWorld [] [] [] x00 None [] [] [] [])) as (w' & E & Hf & Ht & Hh).
  - repeat split.
  - repeat constructor; vm_compute; try lia; try reflexivity.
  - exists w'. split; [exact E|]. split; [exact Hf|]. split; [exact Ht | exact Hh].
Defined.

(** ** The size of the receive buffer *)

Lemma recv_loop_size (script : list (list byte)) :
  forall (b : Buf) (w : World) (total : Z),
    buf_inv b ->
    datalen b <= total -> bufsize b <= Z.max 1024 (2 * total) ->
    total + Z.of_nat (length (concat script)) < 2 ^ 62 ->
    Forall (fun c => (length c <= Z.to_nat TEMP_SIZE)%nat) script ->
    ends_well
      (fun b' _ =>
         exists consumed rest,
           script = consumed ++ rest /\
           1024 <= bufsize b' /\
           bufsize b' <= Z.max 1024 (2 * (total + Z.of_nat (length (concat consumed)))))
      (recv_loop b script w).
Proof.
  induction script as [|c cs IH]; intros b w total Hinv Hd Hb Htot Hall;
    cbn [recv_loop];
    destruct (exit_requested_next w) as (stop & w0 & E & Hj);
    rewrite (bind_next _ _ _ _ _ E);
    pose proof (inv_min b Hinv) as Hmin.
  - destruct stop; exists [], []; cbn [concat length app];
      (split; [reflexivity|]; split; [assumption|]);
      change (Z.of_nat 0) with 0; rewrite Z.add_0_r; assumption.
  - assert (Hstay : exists consumed rest,
               c :: cs = consumed ++ rest /\
               1024 <= bufsize b /\
               bufsize b <= Z.max 1024 (2 * (total + Z.of_nat (length (concat consumed))))).
    { exists [], (c :: cs). cbn [concat length app].
      split; [reflexivity|]. split; [assumption|].
      change (Z.of_nat 0) with 0. rewrite Z.add_0_r. assumption. }
    destruct stop; [exact Hstay|].
    inversion Hall as [|? ? Hc Hcs]; subst.
    destruct (Z.of_nat (length c) >? 0) eqn:Epos; [|exact Hstay].
    apply Z.gtb_lt in Epos.
    cbn [concat] in Htot. rewrite length_app, Nat2Z.inj_add in Htot.
    assert (Hv : valid_chunk c) by (split; lia).
    apply (ends_well_bind _ _ (fun b' _ => b' = next_buf b c (junk w0))).
    + apply ingest_any; try assumption. lia.
    + intros b' w1 ->.
      destruct (run_buf_spec [c] (junk w0) b total Hinv Hd Hb)
        as (Hinv' & Hcont & Hdl & Hsize); [constructor; [assumption|constructor]|].
      cbn [run_buf fold_left concat] in Hinv', Hcont, Hdl, Hsize.
      rewrite app_nil_r in *.
      specialize (IH (next_buf b c (junk w0)) w1 (total + Z.of_nat (length c))
                     Hinv' Hdl Hsize ltac:(lia) Hcs).
      destruct (recv_loop _ cs w1) as [[b2| | |] w2]; cbn [ends_well] in *; auto.
      destruct IH as (consumed & rest & -> & Hlo & Hhi).
      exists (c :: consumed), rest. split; [reflexivity|]. split; [assumption|].
      cbn [concat]. rewrite length_app, Nat2Z.inj_add.
      now rewrite Z.add_assoc.
Qed.

(** X7.  The receive buffer of a connection starts at 1024 bytes and
    never gets larger than twice the number of bytes the connection has
    delivered so far (or stays at 1024): in every state in which the
    receive loop is still running, in any environment. *)
Theorem receive_buffer_is_bounded (script : list (list byte)) (fill : byte) (w : World) :
  Forall (fun c => (length c <= Z.to_nat TEMP_SIZE)%nat) script ->
  Z.of_nat (length (concat script)) < 2 ^ 62 ->
  ends_well
    (fun b' _ =>
       exists consumed rest,
         script = consumed ++ rest /\
         1024 <= bufsize b' /\
         bufsize b' <= Z.max 1024 (2 * Z.of_nat (length (concat consumed))))
    (recv_loop (fresh_buf fill) script w).
Proof.
  intros Hall Hlen.
  apply (recv_loop_size script (fresh_buf fill) w 0);
    try assumption; try apply fresh_buf_inv;
    unfold fresh_buf; cbn [datalen bufsize]; lia.
Qed.

Lemma receive_buffer_is_bounded_witness :
  ends_well
    (fun b' _ =>
       exists consumed rest,
         [repeat "a"%byte 512; repeat "a"%byte 512; [newline]] = consumed ++ rest /\
         1024 <= bufsize b' /\
         bufsize b' <= Z.max 1024 (2 * Z.of_nat (length (concat consumed))))
    (recv_loop (fresh_buf x00)
               [repeat "a"%byte 512; repeat "a"%byte 512; [newline]]
               (fresh_world x00)).
Proof.
  apply (receive_buffer_is_bounded
           [repeat "a"%byte 512; repeat "a"%byte 512; [newline]] x00 (fresh_world x00)).
  - repeat constructor; vm_compute; lia.
  - vm_compute. reflexivity.
Defined.

(** ** The older variant, connection by connection *)

Lemma fgets_app (n : nat) :
  forall s, fst (Assignment.fgets n s) ++ snd (Assignment.fgets n s) = s.
Proof.
  induction n as [|n IH]; intros [|c s]; cbn [Assignment.fgets]; try reflexivity.
  destruct (is_nl c); [reflexivity|].
  specialize (IH s). destruct (Assignment.fgets n s) as [line rest].
  cbn [fst snd app] in *. now rewrite IH.
Qed.

Lemma fgets_progress (n : nat) (c : byte) (s : list byte) :
  (0 < n)%nat ->
  (length (snd (Assignment.fgets n (c :: s))) <= length s)%nat.
Proof.
  intros Hn. destruct n as [|n]; [lia|]. cbn [Assignment.fgets].
  destruct (is_nl c); [cbn [snd]; lia|].
  pose proof (fgets_app n s) as H.
  destruct (Assignment.fgets n s) as [line rest]. cbn [fst snd] in *.
  apply (f_equal (@length byte)) in H. rewrite length_app in H. lia.
Qed.

Lemma fwrite_fflush_grows (p : list byte) (w : World) :
  exists w', fwrite_fflush p w = (Next tt, w') /\ grows w w' /\ held w' = held w.
Proof.
  unfold fwrite_fflush. rewrite pop_hd_tl.
  destruct (hd true (fwrite_q w)); eexists; (split; [reflexivity|]);
    (split; [|reflexivity]); eexists; cbn; (split; [reflexivity|]);
    cbn; now rewrite ?app_nil_r.
Qed.

Lemma send_lt_0_grows (block : list byte) (w : World) :
  exists r w', send_lt_0 block w = (Next r, w') /\ grows w w' /\ held w' = held w.
Proof.
  unfold send_lt_0. rewrite pop_hd_tl.
  destruct (hd SentAll (send_q w)); eexists; eexists; (split; [reflexivity|]);
    (split; [|reflexivity]); eexists; cbn; (split; [reflexivity|]);
    cbn; now rewrite ?app_nil_r.
Qed.

Lemma assignment_recv_loop_grows (script : list (list byte)) :
  forall w,
    exists found w',
      Assignment.recv_loop script w = (Next found, w') /\
      grows w w' /\ held w' = held w.
Proof.
  induction script as [|b script IH]; intros w; cbn [Assignment.recv_loop].
  - exists false, w. split; [reflexivity|]. split; [apply grows_refl | reflexivity].
  - destruct (Z.of_nat (length b) >? 0).
    + destruct (fwrite_fflush_grows b w) as (w1 & E & G & Hh).
      rewrite (bind_next _ _ _ _ _ E).
      destruct (Assignment.strchr_nl b).
      * exists true, w1. split; [reflexivity|]. now split.
      * destruct (IH w1) as (found & w' & E' & G' & Hh').
        exists found, w'. split; [exact E'|].
        split; [eapply grows_trans; eassumption | congruence].
    + exists false, w. split; [reflexivity|]. split; [apply grows_refl | reflexivity].
Qed.

Lemma assignment_reply_loop_grows (fuel : nat) :
  forall left w,
    (length left <= fuel)%nat ->
    exists w',
      Assignment.reply_loop fuel left w = (Next tt, w') /\
      grows w w' /\ held w' = held w.
Proof.
  induction fuel as [|fuel IH]; intros [|c left] w Hlen;
    cbn [Assignment.reply_loop];
    try (exists w; split; [reflexivity|]; split; [apply grows_refl | reflexivity]).
  - cbn [length] in Hlen. lia.
  - pose proof (fgets_progress (Assignment.BUFFER_SIZE - 1) c left
                  ltac:(unfold Assignment.BUFFER_SIZE; lia)) as Hp.
    destruct (Assignment.fgets (Assignment.BUFFER_SIZE - 1) (c :: left))
      as [buffer left'].
    cbn [snd] in Hp. cbn [length] in Hlen.
    destruct (send_lt_0_grows (Assignment.c_string buffer) w) as (r & w1 & E & G & Hh).
    rewrite (bind_next _ _ _ _ _ E).
    destruct (IH left' w1 ltac:(lia)) as (w' & E' & G' & Hh').
    exists w'. split; [exact E'|].
    split; [eapply grows_trans; eassumption | congruence].
Qed.

Lemma assignment_connection_closes (c : Conn) (w : World) :
  exists w',
    Assignment.serve_connection c w = (Next tt, w') /\
    held w' = release_one RSock (held w) /\
    grows w w'.
Proof.
  unfold Assignment.serve_connection.
  erewrite bind_next by reflexivity.
  set (w0 := set_trace _ w).
  assert (G0 : grows w w0).
  { eexists. split; [reflexivity|]. cbn. now rewrite app_nil_r. }
  unfold bind at 1, fopen. rewrite pop_hd_tl.
  destruct (hd true (fopen_q w0)); cbn [negb].
  - set (w1 := set_held _ _).
    assert (G1 : grows w0 w1) by (exists []; cbn; now rewrite !app_nil_r).
    destruct (assignment_recv_loop_grows (incoming c) w1) as (found & w2 & E & G2 & Hh2).
    rewrite (bind_next _ _ _ _ _ E).
    assert (Hreply : exists w3,
               (if found then fun w => Assignment.reply_loop (length (file w)) (file w) w
                else ret tt) w2 = (Next tt, w3) /\ grows w2 w3 /\ held w3 = held w2).
    { destruct found.
      - apply assignment_reply_loop_grows. lia.
      - exists w2. split; [reflexivity|]. split; [apply grows_refl | reflexivity]. }
    destruct Hreply as (w3 & E3 & G3 & Hh3).
    rewrite (bind_next _ _ _ _ _ E3).
    eexists. split; [reflexivity|]. unfold grows.
    unfold fclose, release, syslog, emit, bind.
    cbn [held set_held set_trace trace file].
    split.
    + rewrite Hh3, Hh2. subst w1 w0. cbn [held set_held set_trace set_fopen_q].
      cbn [release_one Resource_eqb]. reflexivity.
    + apply grows_then_emit; [reflexivity|].
      assert (G : grows w w3) by
        (eapply grows_trans; [exact G0|]; eapply grows_trans; [exact G1|];
         eapply grows_trans; eassumption).
      destruct G as (evs & Ht & Hf). exists evs. cbn. now split.
  - erewrite bind_next by reflexivity.
    eexists. split; [reflexivity|]. split; [reflexivity|].
    unfold grows. eexists. cbn. split.
    + subst w0. cbn. rewrite <- app_assoc. reflexivity.
    + cbn. now rewrite app_nil_r.
Qed.

(** X8.  In the older variant, as long as every library call returns
    (no [send] raises SIGPIPE), the handling of a connection comes to
    its end, whatever the client sends and whichever failures [fopen],
    [fwrite] and [send] report: the [fgets]/[send] loop reaches the end
    of the file, the stream (when it was opened) and the client socket
    are closed, and the body of the accept loop falls through to the
    next [accept]. *)
Theorem assignment_connection_always_closes (c : Conn) (w : World) :
  exists w',
    Assignment.serve_connection c w = (Next tt, w') /\
    held w' = release_one RSock (held w).
Proof.
  destruct (assignment_connection_closes c w) as (w' & E & Hh & G).
  exists w'. split; [exact E | exact Hh].
Qed.

Lemma assignment_recv_loop_cut (pre : list (list byte)) (c : list byte)
      (post : list (list byte)) :
  Assignment.strchr_nl c = true ->
  forall w,
    Assignment.recv_loop (pre ++ c :: post) w = Assignment.recv_loop (pre ++ [c]) w.
Proof.
  intros Hnl. induction pre as [|b pre IH]; intros w; cbn [app Assignment.recv_loop].
  - destruct (Z.of_nat (length c) >? 0); [|reflexivity].
    rewrite Hnl. reflexivity.
  - destruct (Z.of_nat (length b) >? 0); [|reflexivity].
    destruct (fwrite_fflush_next b w) as (w1 & E).
    rewrite !(bind_next _ _ _ _ _ E).
    destruct (Assignment.strchr_nl b); [reflexivity | apply IH].
Qed.

(** X9.  The older variant reads one message per connection: once
    [strchr] has found a newline in a chunk, nothing the client sends
    afterwards is received; the connection runs as if that chunk had
    been the last one. *)
Theorem assignment_reads_one_message (ip : string) (pre : list (list byte))
        (c : list byte) (post : list (list byte)) (w : World) :
  Assignment.strchr_nl c = true ->
  Assignment.serve_connection (mkConn ip (pre ++ c :: post)) w
  = Assignment.serve_connection (mkConn ip (pre ++ [c])) w.
Proof.
  intros Hnl. unfold Assignment.serve_connection, bind. cbn [incoming client_ip].
  destruct (syslog LOG_INFO _ w) as [[[]| | |] w0]; try reflexivity.
  destruct (fopen RFile w0) as [[ok| | |] w1]; try reflexivity.
  destruct ok; cbn [negb]; [|reflexivity].
  rewrite assignment_recv_loop_cut by assumption. reflexivity.
Qed.

Lemma assignment_reads_one_message_witness :
  Assignment.serve_connection
    (mkConn "10.0.0.7" ([["a"]] ++ ["b"; newline] :: [["c"; newline]])%byte)
    (fresh_world x00)
  = Assignment.serve_connection
      (mkConn "10.0.0.7" ([["a"]] ++ [["b"; newline]])%byte) (fresh_world x00).
Proof.
  apply (assignment_reads_one_message "10.0.0.7" [["a"]]%byte ["b"; newline]%byte
           [["c"; newline]]%byte (fresh_world x00)).
  reflexivity.
Defined.

Lemma calm_world (w : World) :
  calm w -> w = mkWorld (file w) (trace w) (held w) (junk w) None [] [] [] [].
Proof.
  destruct w as [f t h j s a fo fw sq]. unfold calm.
  cbn [file trace held junk sig alloc_q fopen_q fwrite_q send_q].
  intros (Hs & Ha & Hfo & Hfw & Hsq). subst. reflexivity.
Qed.

Lemma c_string_id (l : list byte) :
  Forall (fun b => b <> x00) l -> Assignment.c_string l = l.
Proof.
  induction 1 as [|b l Hb _ IH]; cbn [Assignment.c_string]; [reflexivity|].
  destruct (Byte.eqb b x00) eqn:E.
  - apply Byte.byte_dec_bl in E. contradiction.
  - now rewrite IH.
Qed.

Lemma fwrite_fflush_settled (p f : list byte) (t : list Event)
      (h : list Resource) (j : byte) :
  fwrite_fflush p (mkWorld f t h j None [] [] [] [])
  = (Next tt, mkWorld (f ++ p) (t ++ [Append p true]) h j None [] [] [] []).
Proof. reflexivity. Qed.

Lemma send_lt_0_settled (block f : list byte) (t : list Event)
      (h : list Resource) (j : byte) :
  send_lt_0 block (mkWorld f t h j None [] [] [] [])
  = (Next false, mkWorld f (t ++ [Sent block]) h j None [] [] [] []).
Proof. reflexivity. Qed.

Lemma assignment_recv_loop_calm (pre rest : list (list byte)) :
  Forall unfinished pre ->
  forall f t h j,
    Assignment.recv_loop (pre ++ rest) (mkWorld f t h j None [] [] [] [])
    = Assignment.recv_loop rest
        (mkWorld (f ++ concat pre) (t ++ map (fun b => Append b true) pre)
                 h j None [] [] [] []).
Proof.
  induction 1 as [|b pre [Hpos Hnl] _ IH]; intros f t h j.
  - cbn [app concat map]. now rewrite !app_nil_r.
  - cbn [app Assignment.recv_loop].
    replace (Z.of_nat (length b) >? 0) with true by (symmetry; apply Z.gtb_lt; lia).
    rewrite (bind_next _ _ _ _ _ (fwrite_fflush_settled b f t h j)).
    rewrite Hnl, IH. cbn [concat map]. rewrite <- !app_assoc. reflexivity.
Qed.

Lemma assignment_reply_loop_calm (fuel : nat) :
  forall left f t h j,
    (length left <= fuel)%nat ->
    Forall (fun b => b <> x00) left ->
    exists reply,
      Assignment.reply_loop fuel left (mkWorld f t h j None [] [] [] [])
      = (Next tt, mkWorld f (t ++ reply) h j None [] [] [] []) /\
      wire reply = left /\
      appended reply = [].
Proof.
  induction fuel as [|fuel IH]; intros [|c left] f t h j Hlen Hnul;
    cbn [Assignment.reply_loop];
    try solve [exists []; rewrite app_nil_r; repeat split].
  - cbn [length] in Hlen. lia.
  - pose proof (fgets_progress (Assignment.BUFFER_SIZE - 1) c left
                  ltac:(unfold Assignment.BUFFER_SIZE; lia)) as Hp.
    pose proof (fgets_app (Assignment.BUFFER_SIZE - 1) (c :: left)) as Happ.
    destruct (Assignment.fgets (Assignment.BUFFER_SIZE - 1) (c :: left))
      as [buffer left'].
    cbn [fst snd] in Hp, Happ. cbn [length] in Hlen.
    rewrite <- Happ in Hnul. apply Forall_app in Hnul. destruct Hnul as [Hb Hl].
    rewrite (c_string_id buffer Hb).
    rewrite (bind_next _ _ _ _ _ (send_lt_0_settled buffer f t h j)).
    destruct (IH left' f (t ++ [Sent buffer]) h j ltac:(lia) Hl)
      as (reply & E & Hw & Ha).
    exists (Sent buffer :: reply). rewrite E, <- app_assoc.
    split; [reflexivity|]. cbn [wire appended]. rewrite Hw. now split.
Qed.

Lemma emit_settled (e : Event) (f : list byte) (t : list Event)
      (h : list Resource) (j : byte) :
  emit e (mkWorld f t h j None [] [] [] [])
  = (Next tt, mkWorld f (t ++ [e]) h j None [] [] [] []).
Proof. reflexivity. Qed.

Lemma fopen_settled (r : Resource) (f : list byte) (t : list Event)
      (h : list Resource) (j : byte) :
  fopen r (mkWorld f t h j None [] [] [] [])
  = (Next true, mkWorld f t (r :: h) j None [] [] [] []).
Proof. reflexivity. Qed.

Lemma release_settled (r : Resource) (f : list byte) (t : list Event)
      (h : list Resource) (j : byte) :
  release r (mkWorld f t h j None [] [] [] [])
  = (Next tt, mkWorld f t (release_one r h) j None [] [] [] []).
Proof. reflexivity. Qed.

Lemma assignment_close_settled (ip : string) (f : list byte) (t : list Event)
      (h : list Resource) (j : byte) :
  (fclose RFile ;; release RSock ;;
   syslog LOG_INFO ("Closed connection from " ++ ip)%string)
    (mkWorld f t (RFile :: h) j None [] [] [] [])
  = (Next tt,
     mkWorld f (t ++ [Syslog LOG_INFO ("Closed connection from " ++ ip)])
             (release_one RSock h) j None [] [] [] []).
Proof. reflexivity. Qed.

(** X10.  The older variant stores data that never gets its newline:
    when nothing fails and no chunk of a connection holds a newline
    that [strchr] sees, every chunk is appended to the data file as it
    arrives, nothing is sent back, and the connection is closed. *)
Theorem assignment_keeps_unterminated_data (ip : string) (script : list (list byte))
        (w : World) :
  calm w ->
  Forall unfinished script ->
  exists w',
    Assignment.serve_connection (mkConn ip script) w = (Next tt, w') /\
    file w' = file w ++ concat script /\
    trace w'
    = trace w
      ++ Syslog LOG_INFO ("Accepted connection from " ++ ip)
      :: map (fun b => Append b true) script
      ++ [Syslog LOG_INFO ("Closed connection from " ++ ip)] /\
    held w' = release_one RSock (held w).
Proof.
  intros Hc Hall. rewrite (calm_world w Hc).
  cbn [file trace held].
  generalize (file w) (trace w) (held w) (junk w). intros f t h j.
  pose proof (assignment_recv_loop_calm script [] Hall f
                (t ++ [Syslog LOG_INFO ("Accepted connection from " ++ ip)])
                (RFile :: h) j) as E.
  rewrite app_nil_r in E. cbn [Assignment.recv_loop] in E. unfold ret in E.
  unfold Assignment.serve_connection. cbn [incoming client_ip]. unfold syslog at 1.
  rewrite (bind_next _ _ _ _ _ (emit_settled _ f t h j)).
  rewrite (bind_next _ _ _ _ _ (fopen_settled RFile f _ h j)). cbn [negb].
  rewrite (bind_next _ _ _ _ _ E).
  erewrite bind_next by reflexivity.
  rewrite assignment_close_settled.
  eexists. split; [reflexivity|]. cbn [file trace held].
  split; [reflexivity|]. split; [|reflexivity].
  repeat rewrite <- app_assoc. reflexivity.
Qed.

Lemma assignment_keeps_unterminated_data_witness :
  exists w',
    Assignment.serve_connection (mkConn "10.0.0.7" [["a"]; ["b"; "c"]]%byte)
                                (fresh_world x00) = (Next tt, w') /\
    file w' = ["a"; "b"; "c"]%byte /\
    trace w'
    = [Syslog LOG_INFO "Accepted connection from 10.0.0.7";
       Append ["a"]%byte true;
       Append ["b"; "c"]%byte true;
       Syslog LOG_INFO "Closed connection from 10.0.0.7"] /\
    held w' = [].
Proof.
  destruct (assignment_keeps_unterminated_data "10.0.0.7" [["a"]; ["b"; "c"]]%byte
              (fresh_world x00)) as (w' & E & Hf & Ht & Hh).
  - repeat split.
  - repeat constructor.
  - exists w'. split; [exact E|]. split; [exact Hf|]. split; [exact Ht | exact Hh].
Defined.

(** X11.  The one reply of the older variant: when nothing fails, the
    first chunk in which [strchr] finds a newline ends the reading,
    every chunk read up to it has been appended as it came, and the
    lines then sent, put together, are the whole data file, provided
    the file holds no NUL byte ([strlen] measures what is sent). *)
Theorem assignment_reply_is_file (ip : string) (pre : list (list byte))
        (c : list byte) (post : list (list byte)) (w : World) :
  calm w ->
  Forall unfinished pre ->
  Assignment.strchr_nl c = true ->
  Forall (fun b => b <> x00) (file w ++ concat pre ++ c) ->
  exists w' reply,
    Assignment.serve_connection (mkConn ip (pre ++ c :: post)) w = (Next tt, w') /\
    file w' = file w ++ concat pre ++ c /\
    trace w'
    = trace w
      ++ Syslog LOG_INFO ("Accepted connection from " ++ ip)
      :: map (fun b => Append b true) (pre ++ [c])
      ++ reply
      ++ [Syslog LOG_INFO ("Closed connection from " ++ ip)] /\
    wire reply = file w' /\
    appended reply = [] /\
    held w' = release_one RSock (held w).
Proof.
  intros Hc Hall Hnl. rewrite (calm_world w Hc).
  cbn [file trace held].
  generalize (file w) (trace w) (held w) (junk w). intros f t h j Hnul.
  pose proof (assignment_recv_loop_calm pre (c :: post) Hall f
                (t ++ [Syslog LOG_INFO ("Accepted connection from " ++ ip)])
                (RFile :: h) j) as E.
  cbn [Assignment.recv_loop] in E.
  assert (Hpos : (Z.of_nat (length c) >? 0) = true)
    by (destruct c; [discriminate | reflexivity]).
  rewrite Hpos in E.
  rewrite (bind_next _ _ _ _ _ (fwrite_fflush_settled c _ _ _ _)), Hnl in E.
  unfold ret in E.
  unfold Assignment.serve_connection. cbn [incoming client_ip]. unfold syslog at 1.
  rewrite (bind_next _ _ _ _ _ (emit_settled _ f t h j)).
  rewrite (bind_next _ _ _ _ _ (fopen_settled RFile f _ h j)). cbn [negb].
  rewrite (bind_next _ _ _ _ _ E).
  cbn beta iota.
  destruct (assignment_reply_loop_calm
              (length ((f ++ concat pre) ++ c)) ((f ++ concat pre) ++ c)
              ((f ++ concat pre) ++ c)
              (((t ++ [Syslog LOG_INFO ("Accepted connection from " ++ ip)])
                ++ map (fun b => Append b true) pre) ++ [Append c true])
              (RFile :: h) j (le_n _))
    as (reply & Er & Hw & Ha).
  { now rewrite <- app_assoc. }
  unfold bind at 1. cbn beta. cbn [file]. rewrite Er.
  rewrite assignment_close_settled.
  eexists. exists reply. split; [reflexivity|]. cbn [file trace held].
  split; [now rewrite <- app_assoc|].
  split; [|split; [exact Hw | split; [exact Ha | reflexivity]]].
  rewrite map_app. cbn [map]. repeat rewrite <- app_assoc. reflexivity.
Qed.

Lemma assignment_reply_is_file_witness :
  exists w' reply,
    Assignment.serve_connection
      (mkConn "10.0.0.7" ([["a"]] ++ ["b"; newline; "c"; newline] :: [["d"; newline]])%byte)
      (fresh_world x00) = (Next tt, w') /\
    file w' = ["a"; "b"; newline; "c"; newline]%byte /\
    trace w'
    = Syslog LOG_INFO "Accepted connection from 10.0.0.7"
      :: Append ["a"]%byte true
      :: Append ["b"; newline; "c"; newline]%byte true
      :: reply ++ [Syslog LOG_INFO "Closed connection from 10.0.0.7"] /\
    wire reply = file w' /\
    appended reply = [] /\
    held w' = [].
Proof.
  destruct (assignment_reply_is_file "10.0.0.7" [["a"]]%byte
              ["b"; newline; "c"; newline]%byte [["d"; newline]]%byte
              (fresh_world x00)) as (w' & reply & E & Hf & Ht & Hw & Ha & Hh).
  - repeat split.
  - repeat constructor.
  - reflexivity.
  - repeat constructor; discriminate.
  - exists w', reply. split; [exact E|]. split; [exact Hf|]. split; [exact Ht|].
    split; [exact Hw|]. split; [exact Ha | exact Hh].
Defined.

